(** * The per-participant relay unit of [server-go/wrtc/tracks/peer.go]

    A shallow embedding of the Go package [tracks]: the [Peer] record, its
    sender registry, its two event handlers, the track relay started by
    [startCopyingTrack] (a periodic PLI task and a blocking copy task), and
    the properties of these operations.

    Conventions of the embedding:
    - a Go pointer is an address ([positive]); a [*webrtc.Track] is a record
      that carries its address next to the fields the package reads, and the
      sender map, keyed in Go by pointer identity, is a [gmap] over addresses;
    - a Go [error] that may be [nil] is an [option error];
    - the code runs in a state monad over a [World]: the [Peer], the state of
      the transport behind the [PeerConnection] interface, the relays (one per
      pair of goroutines started by [startCopyingTrack]) and the chronological
      trace of every externally visible action;
    - what the environment decides (ICE events, inbound tracks, ticks of a
      ticker, the outcome of a blocking read or of a write) is an [Input]; the
      scheduler's interleaving of the goroutines is the order of the inputs. *)

From stdpp Require Import base option list strings gmap.
From Stdlib Require Import ZArith Strings.Byte.

Local Open Scope Z_scope.
Local Open Scope string_scope.
Local Open Scope list_scope.

(** ** Values of the Go runtime and of the pion packages *)

(** A Go [error] value.  [io.ErrClosedPipe] is a package-level value that the
    code compares by identity; every other error is known by its message. *)
Inductive error : Type :=
| ErrClosedPipe
| errorString (msg : string).

(** [err.Error()], as [%s] prints an error. *)
Definition Error (e : error) : string :=
  match e with
  | ErrClosedPipe => "io: read/write on closed pipe"
  | errorString msg => msg
  end.

(** [err == io.ErrClosedPipe]. *)
Definition isErrClosedPipe (e : error) : bool :=
  match e with
  | ErrClosedPipe => true
  | errorString _ => false
  end.

(** [fmt.Errorf] with the format already applied. *)
Definition Errorf (msg : string) : error := errorString msg.

(** A Go multiple return [(T, error)]. *)
Inductive result (A : Type) : Type :=
| Ok (a : A)
| Err (e : error).
Arguments Ok {A} a.
Arguments Err {A} e.

Module time.
(** [time.Duration] counts nanoseconds. *)
Definition Duration := Z.
Definition Second : Duration := 1000000000.
End time.

Definition rtcpPLIInterval : time.Duration := time.Second * 3.

Module webrtc.

(** [webrtc.RTPCodecType], what [Kind()] returns. *)
Inductive RTPCodecType : Type :=
| RTPCodecTypeAudio
| RTPCodecTypeVideo.

(** [*webrtc.Track]: its address and what [ID()], [PayloadType()] (uint8)
    and [SSRC()] (uint32) return, which the package reads, and what [Kind()]
    and [Label()] return, which it does not. *)
Record Track : Type := mkTrack {
  addr : positive;
  ID : string;
  PayloadType : Z;
  SSRC : Z;
  Kind : RTPCodecType;
  Label : string
}.

(** [*webrtc.RTPSender], an opaque handle. *)
Definition RTPSender : Type := positive.

Inductive ICEConnectionState : Type :=
| ICEConnectionStateUnknown
| ICEConnectionStateNew
| ICEConnectionStateChecking
| ICEConnectionStateConnected
| ICEConnectionStateCompleted
| ICEConnectionStateDisconnected
| ICEConnectionStateFailed
| ICEConnectionStateClosed.

(** [connectionState.String()]. *)
Definition String (s : ICEConnectionState) : string :=
  match s with
  | ICEConnectionStateUnknown => "unknown"
  | ICEConnectionStateNew => "new"
  | ICEConnectionStateChecking => "checking"
  | ICEConnectionStateConnected => "connected"
  | ICEConnectionStateCompleted => "completed"
  | ICEConnectionStateDisconnected => "disconnected"
  | ICEConnectionStateFailed => "failed"
  | ICEConnectionStateClosed => "closed"
  end.

End webrtc.

Module rtcp.

(** [rtcp.Packet]: the packet kinds of the rtcp package.  The code builds
    [PictureLossIndication] only, setting [MediaSSRC] and leaving
    [SenderSSRC] at its zero value. *)
Inductive Packet : Type :=
| PictureLossIndication (SenderSSRC MediaSSRC : Z)
| FullIntraRequest (SenderSSRC MediaSSRC : Z)
| TransportLayerNack (SenderSSRC MediaSSRC : Z)
| ReceiverEstimatedMaximumBitrate (SenderSSRC : Z)
| Goodbye (Sources : list Z)
| RawPacket (bytes : list byte).

Definition isPLI (p : Packet) : bool :=
  match p with
  | PictureLossIndication _ _ => true
  | _ => false
  end.

End rtcp.

(** ** The transport capability *)

(** [type PeerConnection interface]: each method takes the transport's state
    and returns its answer with the next state.  The two subscription methods
    take a handler in Go; the handlers are always the Peer's own two methods,
    which the model dispatches itself (see [deliver]), so they carry no
    argument here.  The interface leaves the two string parameters of
    [NewTrack] unnamed. *)
Class PeerConnection (PC : Type) : Type := {
  pc_AddTrack : webrtc.Track -> PC -> result webrtc.RTPSender * PC;
  pc_RemoveTrack : webrtc.RTPSender -> PC -> option error * PC;
  pc_OnTrack : PC -> PC;
  pc_OnICEConnectionStateChange : PC -> PC;
  pc_WriteRTCP : list rtcp.Packet -> PC -> option error * PC;
  pc_NewTrack : Z -> Z -> string -> string -> PC -> result webrtc.Track * PC
}.

(** ** Observable actions *)

(** [Log] is a [log.Printf]; the [PC_] actions are the calls through the
    [PeerConnection] interface; [OnTrackCb] and [OnCloseCb] are the calls of
    the two callbacks; [TrackRead] and [TrackWrite] are the calls of
    [remoteTrack.Read] and [localTrack.Write], tagged like [TickerStop] with
    the relay whose copy goroutine makes them. *)

Inductive Action : Type :=
| Log (msg : string)
| PC_AddTrack (track : webrtc.Track)
| PC_RemoveTrack (rtpSender : webrtc.RTPSender)
| PC_OnTrack
| PC_OnICEConnectionStateChange
| PC_WriteRTCP (pkts : list rtcp.Packet)
| PC_NewTrack (payloadType ssrc : Z) (s1 s2 : string)
| OnTrackCb (clientID : string) (track : webrtc.Track)
| OnCloseCb (clientID : string)
| NewTicker (d : time.Duration)
| TickerStop (relay : nat)
| TrackRead (relay : nat) (remoteTrack : webrtc.Track)
| TrackWrite (relay : nat) (localTrack : webrtc.Track) (b : list byte).

(** ** State *)

(** [type Peer struct].  [peerConnection] lives in the [World]; [onTrack] and
    [onClose] are the collaborator's closures, whose invocations are recorded
    as [OnTrackCb] and [OnCloseCb]; [localTracksMu] guards nothing observable
    in a sequential run of one handler. *)
Record Peer : Type := mkPeer {
  clientID : string;
  localTracks : list webrtc.Track;
  rtpSenderByTrack : gmap positive webrtc.RTPSender
}.

(** [time.Ticker]: its period and whether [Stop] was called. *)
Record Ticker : Type := mkTicker {
  period : time.Duration;
  stopped : bool
}.

(** The state shared by the two goroutines of one [startCopyingTrack] call:
    the variables they close over, the ticker, whether the copy goroutine
    has returned, and its [rtpBuf]. *)
Record Relay : Type := mkRelay {
  remoteTrack : webrtc.Track;
  localTrack : webrtc.Track;
  ticker : Ticker;
  copying : bool;
  rtpBuf : list byte
}.

(** The relay once [Read] has filled its buffer. *)
Definition withBuf (r : Relay) (buf : list byte) : Relay :=
  mkRelay (remoteTrack r) (localTrack r) (ticker r) (copying r) buf.

(** The relay once its copy goroutine has returned and stopped the ticker. *)
Definition stopRelay (r : Relay) : Relay :=
  mkRelay (remoteTrack r) (localTrack r) (mkTicker (period (ticker r)) true)
          false (rtpBuf r).

Record World (PC : Type) : Type := mkWorld {
  peer : Peer;
  conn : PC;
  relays : list Relay;
  trace : list Action
}.
Arguments mkWorld {PC} _ _ _ _.
Arguments peer {PC} _.
Arguments conn {PC} _.
Arguments relays {PC} _.
Arguments trace {PC} _.

(** ** The code, in a state monad over the world *)

Section Code.

Context {PC : Type} `{PeerConnection PC}.

Definition Op (A : Type) : Type := World PC -> A * World PC.

Definition ret {A : Type} (a : A) : Op A := fun w => (a, w).

Definition bind {A B : Type} (m : Op A) (k : A -> Op B) : Op B :=
  fun w => let (a, w') := m w in k a w'.

Notation "x <- m ;; k" := (bind m (fun x => k))
  (at level 100, m at next level, right associativity).
Notation "m ;;; k" := (bind m (fun _ => k))
  (at level 100, right associativity).

Definition emit (a : Action) : Op unit :=
  fun w => (tt, mkWorld (peer w) (conn w) (relays w) (trace w ++ [a])).

Definition getPeer : Op Peer := fun w => (peer w, w).

Definition setPeer (p : Peer) : Op unit :=
  fun w => (tt, mkWorld p (conn w) (relays w) (trace w)).

Definition getRelays : Op (list Relay) := fun w => (relays w, w).

Definition setRelays (rs : list Relay) : Op unit :=
  fun w => (tt, mkWorld (peer w) (conn w) rs (trace w)).

(** A call through the [peerConnection] field: the action is recorded and
    the transport moves to its next state. *)
Definition call {A : Type} (a : Action) (f : PC -> A * PC) : Op A :=
  fun w => let (r, c) := f (conn w) in
           (r, mkWorld (peer w) c (relays w) (trace w ++ [a])).

(** [log.Printf] with the format already applied. *)
Definition log_Printf (msg : string) : Op unit := emit (Log msg).

(** *** Construction and accessors *)

(** [NewPeer]: the Peer with an empty sender map and no local track, after
    the two handler subscriptions. *)
Definition NewPeer (clientID : string) (peerConnection : PC) : World PC :=
  let w := mkWorld (mkPeer clientID [] ∅) peerConnection [] [] in
  snd ((call PC_OnICEConnectionStateChange
             (fun c => (tt, pc_OnICEConnectionStateChange c)) ;;;
        call PC_OnTrack (fun c => (tt, pc_OnTrack c))) w).

Definition ClientID : Op string := p <- getPeer ;; ret (clientID p).

Definition Tracks : Op (list webrtc.Track) :=
  p <- getPeer ;; ret (localTracks p).

(** *** The sender registry *)

Definition AddTrack (track : webrtc.Track) : Op (option error) :=
  p <- getPeer ;;
  r <- call (PC_AddTrack track) (pc_AddTrack track) ;;
  match r with
  | Err _ =>
      ret (Some (Errorf ("Error adding track: " +:+ webrtc.ID track +:+
                         " to peer clientID: " +:+ clientID p)))
  | Ok rtpSender =>
      setPeer (mkPeer (clientID p) (localTracks p)
                      (<[webrtc.addr track := rtpSender]> (rtpSenderByTrack p))) ;;;
      ret None
  end.

Definition RemoveTrack (track : webrtc.Track) : Op (option error) :=
  p <- getPeer ;;
  match rtpSenderByTrack p !! webrtc.addr track with
  | None =>
      ret (Some (Errorf ("Cannot find sender for track: " +:+ webrtc.ID track +:+
                         ", clientID: " +:+ clientID p)))
  | Some rtpSender =>
      call (PC_RemoveTrack rtpSender) (pc_RemoveTrack rtpSender)
  end.

(** *** ICE state changes *)

Definition isTerminal (connectionState : webrtc.ICEConnectionState) : bool :=
  match connectionState with
  | webrtc.ICEConnectionStateClosed
  | webrtc.ICEConnectionStateDisconnected
  | webrtc.ICEConnectionStateFailed => true
  | _ => false
  end.

Definition handleICEConnectionStateChange
    (connectionState : webrtc.ICEConnectionState) : Op unit :=
  p <- getPeer ;;
  log_Printf ("Peer connection state changed, clientID: " +:+ clientID p +:+
              ", state: " +:+ webrtc.String connectionState) ;;;
  if isTerminal connectionState
  then emit (OnCloseCb (clientID p))
  else ret tt.

(** *** The track relay *)

(** [make([]byte, 1400)]. *)
Definition rtpBufSize : nat := 1400.
Definition make_rtpBuf : list byte := replicate rtpBufSize x00.

Definition startCopyingTrack (remoteTrack : webrtc.Track)
    : Op (result webrtc.Track) :=
  p <- getPeer ;;
  log_Printf ("startCopyingTrack: " +:+ webrtc.ID remoteTrack +:+
              " for peer clientID: " +:+ clientID p) ;;;
  r <- call (PC_NewTrack (webrtc.PayloadType remoteTrack)
                         (webrtc.SSRC remoteTrack) "video" "pion")
            (pc_NewTrack (webrtc.PayloadType remoteTrack)
                         (webrtc.SSRC remoteTrack) "video" "pion") ;;
  match r with
  | Err err =>
      ret (Err (Errorf ("startCopyingTrack: error creating new track, trackID: " +:+
                        webrtc.ID remoteTrack +:+ ", clientID: " +:+ clientID p +:+
                        ", error: " +:+ Error err)))
  | Ok localTrack =>
      log_Printf ("startCopyingTrack: remote track " +:+ webrtc.ID remoteTrack +:+
                  " to new local track: " +:+ webrtc.ID localTrack +:+
                  " for clientID: " +:+ clientID p) ;;;
      emit (NewTicker rtcpPLIInterval) ;;;
      rs <- getRelays ;;
      setRelays (rs ++ [mkRelay remoteTrack localTrack
                                (mkTicker rtcpPLIInterval false) true make_rtpBuf]) ;;;
      ret (Ok localTrack)
  end.

Definition handleTrack (remoteTrack : webrtc.Track) : Op unit :=
  p <- getPeer ;;
  log_Printf ("handleTrack " +:+ webrtc.ID remoteTrack +:+
              " for clientID: " +:+ clientID p) ;;;
  r <- startCopyingTrack remoteTrack ;;
  match r with
  | Err err => log_Printf ("Error copying remote track: " +:+ Error err)
  | Ok localTrack =>
      p <- getPeer ;;
      setPeer (mkPeer (clientID p) (localTracks p ++ [localTrack])
                      (rtpSenderByTrack p)) ;;;
      emit (OnTrackCb (clientID p) localTrack)
  end.

(** One iteration of [for range ticker.C] in relay [i]: the body runs when
    the ticker delivers a tick, and a stopped ticker delivers none. *)
Definition pliTask (i : nat) : Op unit :=
  rs <- getRelays ;;
  match rs !! i with
  | None => ret tt
  | Some r =>
      if stopped (ticker r) then ret tt
      else
        p <- getPeer ;;
        err <- call (PC_WriteRTCP
                       [rtcp.PictureLossIndication 0 (webrtc.SSRC (remoteTrack r))])
                    (pc_WriteRTCP
                       [rtcp.PictureLossIndication 0 (webrtc.SSRC (remoteTrack r))]) ;;
        match err with
        | Some e =>
            log_Printf ("Error sending rtcp PLI for local track: " +:+
                        webrtc.ID (localTrack r) +:+ " for clientID: " +:+
                        clientID p +:+ ": " +:+ Error e)
        | None => ret tt
        end
  end.

(** What the environment answers in one iteration of the copy loop:
    [remoteTrack.Read] fails, or it stores a packet in the buffer and
    [localTrack.Write] then answers [werr]. *)
Inductive CopyIO : Type :=
| ReadFails (e : error)
| ReadThenWrite (data : list byte) (werr : option error).

(** The copy goroutine returns: its deferred [ticker.Stop()] runs. *)
Definition returnFromCopy (i : nat) : Op unit :=
  emit (TickerStop i) ;;;
  rs <- getRelays ;;
  setRelays (alter stopRelay i rs).

(** [Read] fills a prefix of the buffer and returns its length [n]
    ([0 <= n <= len(rtpBuf)]). *)
Definition readInto (buf data : list byte) : nat * list byte :=
  let n := Nat.min (length data) (length buf) in
  (n, take n data ++ drop n buf).

(** One iteration of the copy loop of relay [i]. *)
Definition copyTask (i : nat) (io : CopyIO) : Op unit :=
  rs <- getRelays ;;
  match rs !! i with
  | None => ret tt
  | Some r =>
      if negb (copying r) then ret tt
      else
        p <- getPeer ;;
        emit (TrackRead i (remoteTrack r)) ;;;
        match io with
        | ReadFails e =>
            log_Printf ("Error reading from remote track: " +:+
                        webrtc.ID (remoteTrack r) +:+ " for clientID: " +:+
                        clientID p +:+ ": " +:+ Error e) ;;;
            returnFromCopy i
        | ReadThenWrite data werr =>
            let (n, buf) := readInto (rtpBuf r) data in
            setRelays (<[i := withBuf r buf]> rs) ;;;
            emit (TrackWrite i (localTrack r) (take n buf)) ;;;
            match werr with
            | None => ret tt
            | Some e =>
                if isErrClosedPipe e then ret tt
                else
                  log_Printf ("Error writing to local track: " +:+
                              webrtc.ID (localTrack r) +:+ " for clientID: " +:+
                              clientID p +:+ ": " +:+ Error e) ;;;
                  returnFromCopy i
            end
        end
  end.

(** *** The environment *)

Inductive Input : Type :=
| ICEConnectionStateChange (connectionState : webrtc.ICEConnectionState)
| TrackPublished (remoteTrack : webrtc.Track)
| Tick (relay : nat)
| Copy (relay : nat) (io : CopyIO)
| CallAddTrack (track : webrtc.Track)
| CallRemoveTrack (track : webrtc.Track).

Definition deliver (i : Input) : Op unit :=
  match i with
  | ICEConnectionStateChange s => handleICEConnectionStateChange s
  | TrackPublished t => handleTrack t
  | Tick r => pliTask r
  | Copy r io => copyTask r io
  | CallAddTrack t => AddTrack t ;;; ret tt
  | CallRemoveTrack t => RemoveTrack t ;;; ret tt
  end.

Fixpoint run (inputs : list Input) : Op unit :=
  match inputs with
  | [] => ret tt
  | i :: rest => deliver i ;;; run rest
  end.

End Code.

(** ** Reading a trace *)

Definition isOnClose (a : Action) : bool :=
  match a with OnCloseCb _ => true | _ => false end.

(** The RTCP packets handed to the transport, in order. *)
Fixpoint rtcpWritten (tr : list Action) : list rtcp.Packet :=
  match tr with
  | [] => []
  | PC_WriteRTCP pkts :: tr' => pkts ++ rtcpWritten tr'
  | _ :: tr' => rtcpWritten tr'
  end.

(** The track I/O of the copy goroutine of relay [i]. *)
Definition isCopyIO (i : nat) (a : Action) : bool :=
  match a with
  | TrackRead j _ | TrackWrite j _ _ => bool_decide (j = i)
  | _ => false
  end.

Definition copyTrace (i : nat) (tr : list Action) : list Action :=
  List.filter (isCopyIO i) tr.

(** The payloads the copy goroutine of relay [i] has written, in order. *)
Fixpoint writesBy (i : nat) (tr : list Action) : list (list byte) :=
  match tr with
  | [] => []
  | TrackWrite j _ b :: tr' =>
      if bool_decide (j = i) then b :: writesBy i tr' else writesBy i tr'
  | _ :: tr' => writesBy i tr'
  end.

(** ** A scripted transport, as a test double *)

(** The double creates tracks the way pion's
    [NewTrack(payloadType, ssrc, id, label)] does: the two strings become the
    track's id and label, and the kind is that of the codec registered for
    the payload type (here 111 is Opus, audio; every other one is video). *)
Definition codecKind (payloadType : Z) : webrtc.RTPCodecType :=
  if bool_decide (payloadType = 111)
  then webrtc.RTPCodecTypeAudio
  else webrtc.RTPCodecTypeVideo.

Record FakePC : Type := mkFakePC {
  failAddTrack : bool;
  failRemoveTrack : bool;
  failWriteRTCP : bool;
  failNewTrack : bool;
  nextAddr : positive
}.

#[global] Instance FakePC_PeerConnection : PeerConnection FakePC := {
  pc_AddTrack _ c :=
    if failAddTrack c then (Err (errorString "negotiation failed"), c)
    else (Ok (nextAddr c),
          mkFakePC (failAddTrack c) (failRemoveTrack c) (failWriteRTCP c)
                   (failNewTrack c) (Pos.succ (nextAddr c)));
  pc_RemoveTrack _ c :=
    (if failRemoveTrack c then Some (errorString "remove failed") else None, c);
  pc_OnTrack c := c;
  pc_OnICEConnectionStateChange c := c;
  pc_WriteRTCP _ c :=
    (if failWriteRTCP c then Some (errorString "rtcp failed") else None, c);
  pc_NewTrack pt ssrc s1 s2 c :=
    if failNewTrack c then (Err (errorString "codec not found"), c)
    else (Ok (webrtc.mkTrack (nextAddr c) s1 pt ssrc (codecKind pt) s2),
          mkFakePC (failAddTrack c) (failRemoveTrack c) (failWriteRTCP c)
                   (failNewTrack c) (Pos.succ (nextAddr c)))
}.

Definition fakeOK : FakePC := mkFakePC false false false false 100.
Definition fakeFailing : FakePC := mkFakePC true true true true 100.

Definition alice : World FakePC := NewPeer "alice" fakeOK.
Definition bob : World FakePC := NewPeer "bob" fakeFailing.

Definition cam : webrtc.Track :=
  webrtc.mkTrack 1 "cam" 96 1111 webrtc.RTPCodecTypeVideo "alice-stream".
Definition mic : webrtc.Track :=
  webrtc.mkTrack 2 "mic" 111 2222 webrtc.RTPCodecTypeAudio "alice-stream".

(** Alice publishes [cam]: the local track the double creates, the relay
    that copies to it, and the world after the inbound-track event. *)
Definition aliceVideo : webrtc.Track :=
  webrtc.mkTrack 100 "video" 96 1111 webrtc.RTPCodecTypeVideo "pion".

(** The local track the double creates when Alice publishes [mic]. *)
Definition aliceAudio : webrtc.Track :=
  webrtc.mkTrack 100 "video" 111 2222 webrtc.RTPCodecTypeAudio "pion".
Definition aliceRelay : Relay :=
  mkRelay cam aliceVideo (mkTicker rtcpPLIInterval false) true make_rtpBuf.
Definition alicePublishing : World FakePC := (run [TrackPublished cam] alice).2.

(** Alice is sent [cam]. *)
Definition aliceSubscribed : World FakePC := (AddTrack cam alice).2.

(** A busy afternoon of Alice's Peer: she publishes [cam], is sent [cam],
    the relay ticks and copies two packets, the second before anyone
    listens, the connection fails, and the remote track ends. *)
Definition aliceSchedule : list Input :=
  [TrackPublished cam;
   CallAddTrack cam;
   Tick 0;
   Copy 0 (ReadThenWrite [x01; x02] None);
   Copy 0 (ReadThenWrite [x03] (Some ErrClosedPipe));
   ICEConnectionStateChange webrtc.ICEConnectionStateFailed;
   Copy 0 (ReadFails (errorString "EOF"));
   Tick 0].
Definition aliceLater : World FakePC := (run aliceSchedule alice).2.

(** The entries of the sender map that belong to one track. *)
Definition entriesFor (k : positive) (m : gmap positive webrtc.RTPSender)
    : list (positive * webrtc.RTPSender) :=
  filter (fun kv => kv.1 = k) (map_to_list m).

Definition countOnClose (tr : list Action) : nat :=
  length (List.filter isOnClose tr).

(** What [startCopyingTrack] gives every relay and no step takes away: the
    ticker's period and the capacity of the copy buffer. *)
Definition relay_ok (r : Relay) : Prop :=
  period (ticker r) = rtcpPLIInterval /\ length (rtpBuf r) = rtpBufSize.

(** The worlds a Peer can be in: those that some sequence of inputs leads to
    from [NewPeer]. *)
Definition reachable {PC : Type} `{PeerConnection PC} (w : World PC) : Prop :=
  exists clientID peerConnection inputs,
    w = (run inputs (NewPeer clientID peerConnection)).2.

(** The inputs of the environment that concern relay [i] alone. *)
Definition ofRelay (i : nat) (inp : Input) : bool :=
  match inp with
  | Tick j | Copy j _ => bool_decide (j = i)
  | _ => false
  end.

(** Relay [i] has stopped: its copy goroutine has returned and its ticker
    delivers no tick. *)
Definition stoppedRelay {PC : Type} (i : nat) (w : World PC) : Prop :=
  exists r, relays w !! i = Some r /\ copying r = false /\ stopped (ticker r) = true.

(** The transport creates the track it is asked for, reading the
    arguments as pion does: [NewTrack(payloadType, ssrc, id, label)]. *)
Definition honoursNewTrack (PC : Type) `{PeerConnection PC} : Prop :=
  forall pt ssrc s1 s2 c t c',
    pc_NewTrack pt ssrc s1 s2 c = (Ok t, c') ->
    webrtc.PayloadType t = pt /\ webrtc.SSRC t = ssrc /\
    webrtc.ID t = s1 /\ webrtc.Label t = s2.

(** The actions of [n] iterations of the copy loop that read [pkts] from
    [rt] and write them to [lt]. *)
Definition copyActions (i : nat) (rt lt : webrtc.Track) (pkts : list (list byte))
    : list Action :=
  flat_map (fun d => [TrackRead i rt; TrackWrite i lt d]) pkts.

(** What the environment answers to the copy goroutine of relay [i], in
    order, within a sequence of inputs. *)
Fixpoint copyInputs (i : nat) (inputs : list Input) : list CopyIO :=
  match inputs with
  | [] => []
  | Copy j io :: rest =>
      if bool_decide (j = i) then io :: copyInputs i rest else copyInputs i rest
  | _ :: rest => copyInputs i rest
  end.

(** ** Further readings of a trace and of a schedule *)

(** The arguments of the [onTrack] calls, in order. *)
Fixpoint onTrackCalls (tr : list Action) : list (string * webrtc.Track) :=
  match tr with
  | [] => []
  | OnTrackCb cid t :: tr' => (cid, t) :: onTrackCalls tr'
  | _ :: tr' => onTrackCalls tr'
  end.

(** The arguments of the [onClose] calls, in order. *)
Fixpoint onCloseCalls (tr : list Action) : list string :=
  match tr with
  | [] => []
  | OnCloseCb cid :: tr' => cid :: onCloseCalls tr'
  | _ :: tr' => onCloseCalls tr'
  end.

(** The packets of each [WriteRTCP] call, in order. *)
Fixpoint rtcpCalls (tr : list Action) : list (list rtcp.Packet) :=
  match tr with
  | [] => []
  | PC_WriteRTCP pkts :: tr' => pkts :: rtcpCalls tr'
  | _ :: tr' => rtcpCalls tr'
  end.

(** The calls through the [PeerConnection] interface, in order. *)
Definition isTransportCall (a : Action) : bool :=
  match a with
  | PC_AddTrack _ | PC_RemoveTrack _ | PC_OnTrack | PC_OnICEConnectionStateChange
  | PC_WriteRTCP _ | PC_NewTrack _ _ _ _ => true
  | _ => false
  end.

Definition transportCalls (tr : list Action) : list Action :=
  List.filter isTransportCall tr.

(** How often the deferred [ticker.Stop()] of relay [i] has run. *)
Definition isTickerStop (i : nat) (a : Action) : bool :=
  match a with
  | TickerStop j => bool_decide (j = i)
  | _ => false
  end.

Definition tickerStops (i : nat) (tr : list Action) : nat :=
  length (List.filter (isTickerStop i) tr).

(** How many tickers [time.NewTicker] has created. *)
Definition isNewTicker (a : Action) : bool :=
  match a with NewTicker _ => true | _ => false end.

Definition tickersCreated (tr : list Action) : nat :=
  length (List.filter isNewTicker tr).

(** The ICE events of a schedule whose state is disconnected, failed or
    closed. *)
Definition isTerminalEvent (x : Input) : bool :=
  match x with
  | ICEConnectionStateChange s => isTerminal s
  | _ => false
  end.

Definition terminalEvents (inputs : list Input) : nat :=
  length (List.filter isTerminalEvent inputs).

Definition isCallAddTrack (x : Input) : bool :=
  match x with CallAddTrack _ => true | _ => false end.

Definition isTrackPublished (x : Input) : bool :=
  match x with TrackPublished _ => true | _ => false end.

(** The two tracks a relay copies between, fixed when it starts. *)
Definition relayTracks (r : Relay) : webrtc.Track * webrtc.Track :=
  (remoteTrack r, localTrack r).

(** The answers to the copy loop after which it goes on: [Read] returned a
    packet, and [Write] returned [nil] or [io.ErrClosedPipe]. *)
Definition keepsCopying (io : CopyIO) : bool :=
  match io with
  | ReadFails _ => false
  | ReadThenWrite _ None => true
  | ReadThenWrite _ (Some e) => isErrClosedPipe e
  end.

(** The packet [Read] returned, if it returned one. *)
Definition packetOf (io : CopyIO) : list byte :=
  match io with
  | ReadFails _ => []
  | ReadThenWrite data _ => data
  end.

(** A write of at most the buffer's capacity. *)
Definition writeFits (a : Action) : Prop :=
  match a with
  | TrackWrite _ _ b => (length b <= rtpBufSize)%nat
  | _ => True
  end.

(** Track I/O and ticker stops that belong to a relay of [tracks], the
    pairs of remote and local track of the relays by index. *)
Definition ownTrackIO (tracks : list (webrtc.Track * webrtc.Track)) (a : Action) : Prop :=
  match a with
  | TrackRead i rt => exists lt, tracks !! i = Some (rt, lt)
  | TrackWrite i lt _ => exists rt, tracks !! i = Some (rt, lt)
  | TickerStop i => is_Some (tracks !! i)
  | _ => True
  end.

(** * The video grid of the client: [Videos.getStreams]

    The React component [Videos] sorts what it shows into a toolbar of
    minimized videos and a grid of the others.  [getStreams] builds the two
    lists from the component's props; it is embedded here with the
    JavaScript values it handles:
    - an object used as a dictionary is the list of its own enumerable
      properties in iteration order; lodash's [map] and [forEach] visit
      these, while [o[k]] also finds what the object inherits from
      [Object.prototype] ([constructor], [toString], [__proto__], ...): it
      is [jsGet o k], one of [Own v], [Inherited] and [Undefined];
    - a value that may be [undefined] is an [option], and so is an optional
      property of an object literal;
    - a [TypeError] (reading a property of [undefined]) makes the whole
      function fail: it is [None] in the result;
    - [ME], [StreamTypeCamera] and [getStreamKey] are imported from modules
      outside this file, and the names of the members of [Object.prototype]
      belong to the JavaScript engine: all are taken as given. *)

Module Videos.

(** The own property of [o] named [k]. *)
Fixpoint jsOwn {V : Type} (o : list (string * V)) (k : string) : option V :=
  match o with
  | [] => None
  | (k', v) :: o' => if bool_decide (k' = k) then Some v else jsOwn o' k
  end.

(** What [o[k]] evaluates to on a plain object: the value of an own
    property, a member of [Object.prototype] (a function, or for [__proto__]
    the prototype itself: truthy, not a string, without a [streamId], [type]
    or [mirror], and without own enumerable properties), or [undefined]. *)
Inductive JsProp (V : Type) : Type :=
| Own (v : V)
| Inherited
| Undefined.
Arguments Own {V} v.
Arguments Inherited {V}.
Arguments Undefined {V}.

(** What the code reads of a value used as a stream: its [streamId], and
    the properties [type] and [mirror] that only a [LocalStream] has.  A
    [StreamWithURL] always has a [streamId]. *)
Record StreamWithURL : Type := mkStream {
  streamId : option string;
  type : option string;
  mirror : option bool
}.

(** A member of [Object.prototype], read as a stream. *)
Definition protoMember : StreamWithURL := mkStream None None None.

(** [interface StreamProps]. *)
Record StreamProps : Type := mkStreamProps {
  key : string;
  stream : option StreamWithURL;
  peerId : string;
  muted : option bool;
  localUser : option bool;
  mirrored : option bool;
  windowState : JsProp string
}.

(** The parts of [StreamsState] that [getStreams] reads. *)
Record StreamsState : Type := mkStreamsState {
  localStreams : list (string * option StreamWithURL);
  pubStreamsKeysByPeerId : list (string * list (string * unit));
  pubStreams : list (string * string);
  remoteStreams : list (string * StreamWithURL)
}.

(** The props of [VideosProps] that [getStreams] destructures; a nickname
    is read for its key only. *)
Record VideosProps : Type := mkVideosProps {
  nicknames : list (string * string);
  streams : StreamsState;
  windowStates : list (string * string)
}.

(** [props.windowState === 'minimized']. *)
Definition isMinimized (p : StreamProps) : bool :=
  match windowState p with
  | Own state => bool_decide (state = "minimized")
  | Inherited | Undefined => false
  end.

Section GetStreams.

Variable ME : string.
Variable StreamTypeCamera : string.
Variable getStreamKey : string -> option string -> string.

(** Whether [Object.prototype] has a member of this name. *)
Variable inObjectPrototype : string -> bool.

Variable props : VideosProps.

Definition jsGet {V : Type} (o : list (string * V)) (k : string) : JsProp V :=
  match jsOwn o k with
  | Some v => Own v
  | None => if inObjectPrototype k then Inherited else Undefined
  end.

(** The two arrays [minimized] and [maximized], in this order. *)
Definition Lists : Type := list StreamProps * list StreamProps.

Definition addStreamProps (p : StreamProps) (acc : Lists) : Lists :=
  if isMinimized p
  then (acc.1 ++ [p], acc.2)
  else (acc.1, acc.2 ++ [p]).

Definition isLocalStream (s : StreamWithURL) : bool :=
  bool_decide (is_Some (mirror s)) && bool_decide (is_Some (type s)).

(** The object literal of the branch [!streams.length]. *)
Definition placeholderProps (localUser : bool) (peerId : string) : StreamProps :=
  let key := getStreamKey peerId None in
  mkStreamProps key None peerId None (Some localUser) None
                (jsGet (windowStates props) key).

(** The object literal inside [streams.forEach]. *)
Definition streamProps (localUser : bool) (peerId : string) (stream : StreamWithURL)
    : StreamProps :=
  let key := getStreamKey peerId (streamId stream) in
  mkStreamProps key (Some stream) peerId
                (Some localUser) (Some localUser)
                (Some (localUser && isLocalStream stream &&
                       bool_decide (type stream = Some StreamTypeCamera) &&
                       default false (mirror stream)))
                (jsGet (windowStates props) key).

(** [streams.forEach(stream => ...)]: reading [stream.streamId] of an
    [undefined] element throws. *)
Fixpoint forEachStream (localUser : bool) (peerId : string)
    (streams : list (option StreamWithURL)) (acc : Lists) : option Lists :=
  match streams with
  | [] => Some acc
  | None :: _ => None
  | Some stream :: rest =>
      forEachStream localUser peerId rest
                    (addStreamProps (streamProps localUser peerId stream) acc)
  end.

Definition addStreamsByUser (localUser : bool) (peerId : string)
    (streams : list (option StreamWithURL)) (acc : Lists) : option Lists :=
  match streams with
  | [] => Some (addStreamProps (placeholderProps localUser peerId) acc)
  | _ => forEachStream localUser peerId streams acc
  end.

(** The props [addStreamsByUser] creates for a user whose streams are
    [sts]: the tiles that show this user. *)
Definition tilesOf (localUser : bool) (peerId : string) (sts : list StreamWithURL)
    : list StreamProps :=
  match sts with
  | [] => [placeholderProps localUser peerId]
  | _ => streamProps localUser peerId <$> sts
  end.

(** The keys lodash's [map] visits in [pubStreamsKeysByPeerId[peerId]]:
    none when that is [undefined], and none when it is a member of
    [Object.prototype]. *)
Definition publishedKeys (peerId : string) : list string :=
  match jsGet (pubStreamsKeysByPeerId (streams props)) peerId with
  | Own o => o.*1
  | Inherited | Undefined => []
  end.

(** [pubStream.streamId] for [pubStream = streams.pubStreams[streamId]]: a
    [TypeError] when the lookup finds nothing, [undefined] when it finds a
    member of [Object.prototype]. *)
Definition pubStreamId (streamId : string) : option (option string) :=
  match jsGet (pubStreams (streams props)) streamId with
  | Own id => Some (Some id)
  | Inherited => Some None
  | Undefined => None
  end.

(** [streams.remoteStreams[id]], kept by [.filter(s => !!s)] unless it is
    [undefined]; the property key of an [undefined] id is "undefined". *)
Definition remoteStream (id : option string) : option StreamWithURL :=
  match jsGet (remoteStreams (streams props)) (default "undefined" id) with
  | Own stream => Some stream
  | Inherited => Some protoMember
  | Undefined => None
  end.

(** The array [s] of a remote peer:
    [map(pubStreamsKeysByPeerId[peerId], (_, streamId) => pubStreams[streamId])
       .map(pubStream => remoteStreams[pubStream.streamId]).filter(s => !!s)]. *)
Definition remoteStreamsOf (peerId : string) : option (list StreamWithURL) :=
  ids ← mapM pubStreamId (publishedKeys peerId);
  Some (omap remoteStream ids).

(** [forEach(nicknames, (_, peerId) => ...)]. *)
Fixpoint forEachNickname (nicks : list (string * string)) (acc : Lists)
    : option Lists :=
  match nicks with
  | [] => Some acc
  | (peerId, _) :: rest =>
      if bool_decide (peerId <> ME)
      then
        s ← remoteStreamsOf peerId;
        acc' ← addStreamsByUser false peerId (Some <$> s) acc;
        forEachNickname rest acc'
      else forEachNickname rest acc
  end.

(** [getStreams()]: the pair [{ minimized, maximized }]. *)
Definition getStreams : option Lists :=
  let localStreams := (localStreams (streams props)).*2 in
  acc ← addStreamsByUser true ME localStreams ([], []);
  forEachNickname (nicknames props) acc.

End GetStreams.

(** [addStreamProps] for each of [ps] in turn. *)
Definition addAll (ps : list StreamProps) (acc : Lists) : Lists :=
  foldl (fun a p => addStreamProps p a) acc ps.


(** A call with three participants: the local user [me] with a mirrored
    camera; [bob], for whom three stream ids are published: [s1] has arrived
    and is minimized, [s2] names a stream called "toString", which
    [remoteStreams] inherits, and "constructor" is no entry of [pubStreams]
    but inherited by it; and [carol], who published nothing. *)
Definition demoKey (peerId : string) (streamId : option string) : string :=
  peerId +:+ "_" +:+ default "" streamId.

Definition demoPrototype (k : string) : bool :=
  bool_decide (k ∈ ["constructor"; "hasOwnProperty"; "isPrototypeOf";
                    "propertyIsEnumerable"; "toLocaleString"; "toString";
                    "valueOf"; "__proto__"; "__defineGetter__";
                    "__defineSetter__"; "__lookupGetter__"; "__lookupSetter__"]).

Definition demoProps : VideosProps :=
  mkVideosProps
    [("me", "Me"); ("bob", "Bob"); ("carol", "Carol")]
    (mkStreamsState
       [("camera", Some (mkStream (Some "cam1") (Some "camera") (Some true)))]
       [("bob", [("s1", tt); ("s2", tt); ("constructor", tt)])]
       [("s1", "s1"); ("s2", "toString")]
       [("s1", mkStream (Some "s1") None None)])
    [("bob_s1", "minimized")].

Definition demoMinimized : list StreamProps :=
  [mkStreamProps "bob_s1" (Some (mkStream (Some "s1") None None)) "bob"
                 (Some false) (Some false) (Some false) (Own "minimized")].

Definition demoMaximized : list StreamProps :=
  [mkStreamProps "me_cam1"
                 (Some (mkStream (Some "cam1") (Some "camera") (Some true))) "me"
                 (Some true) (Some true) (Some true) Undefined;
   mkStreamProps "bob_" (Some protoMember) "bob"
                 (Some false) (Some false) (Some false) Undefined;
   mkStreamProps "carol_" None "carol" None (Some false) None Undefined].

End Videos.

Import Videos.

(** * Properties *)

(** Unfolds the monadic plumbing, leaving the transport's answers. *)
Ltac unfold_op :=
  unfold log_Printf in *;
  unfold bind, ret, emit, call, getPeer, setPeer, getRelays, setRelays in *.

Lemma filter_key_unique {V : Type} (l : list (positive * V)) (k : positive) (v : V) :
  NoDup l.*1 -> (k, v) ∈ l -> filter (fun kv => kv.1 = k) l = [(k, v)].
Proof.
  induction l as [|[k' v'] l IH]; intros Hnd Hin.
  - inversion Hin.
  - cbn in Hnd. apply NoDup_cons in Hnd as [Hfresh Hnd].
    rewrite filter_cons. cbn. destruct (decide (k' = k)) as [->|Hne].
    + assert (Hrest : filter (fun kv : positive * V => kv.1 = k) l = []).
      { clear -Hfresh. induction l as [|[k2 v2] l IHl]; [done|].
        rewrite filter_cons. cbn in *.
        apply not_elem_of_cons in Hfresh as [Hk Hfresh].
        destruct (decide (k2 = k)); [congruence | by apply IHl]. }
      rewrite Hrest. f_equal.
      apply elem_of_cons in Hin as [Heq | Hin]; [congruence|].
      exfalso. apply Hfresh. apply list_elem_of_fmap. by exists (k, v).
    + apply IH; [done|].
      apply elem_of_cons in Hin as [Heq | Hin]; [congruence | done].
Qed.

Lemma entriesFor_lookup (m : gmap positive webrtc.RTPSender) k v :
  m !! k = Some v -> entriesFor k m = [(k, v)].
Proof.
  intros Hk. unfold entriesFor. apply filter_key_unique.
  - apply NoDup_fst_map_to_list.
  - by apply elem_of_map_to_list.
Qed.

Section Registry.

Context {PC : Type} `{PeerConnection PC}.

Implicit Types (w : World PC) (track : webrtc.Track).

(** What [AddTrack] does, for either answer of the transport. *)
Lemma AddTrack_unfold track w :
  AddTrack track w =
  match pc_AddTrack track (conn w) with
  | (Ok rtpSender, c) =>
      (None,
       mkWorld (mkPeer (clientID (peer w)) (localTracks (peer w))
                       (<[webrtc.addr track := rtpSender]> (rtpSenderByTrack (peer w))))
               c (relays w) (trace w ++ [PC_AddTrack track]))
  | (Err _, c) =>
      (Some (Errorf ("Error adding track: " +:+ webrtc.ID track +:+
                     " to peer clientID: " +:+ clientID (peer w))),
       mkWorld (peer w) c (relays w) (trace w ++ [PC_AddTrack track]))
  end.
Proof.
  unfold AddTrack. unfold_op. cbn.
  destruct (pc_AddTrack track (conn w)) as [[s|e] c]; reflexivity.
Qed.

Lemma RemoveTrack_unfold track w :
  RemoveTrack track w =
  match rtpSenderByTrack (peer w) !! webrtc.addr track with
  | None =>
      (Some (Errorf ("Cannot find sender for track: " +:+ webrtc.ID track +:+
                     ", clientID: " +:+ clientID (peer w))), w)
  | Some rtpSender =>
      ((pc_RemoveTrack rtpSender (conn w)).1,
       mkWorld (peer w) (pc_RemoveTrack rtpSender (conn w)).2 (relays w)
               (trace w ++ [PC_RemoveTrack rtpSender]))
  end.
Proof.
  unfold RemoveTrack. unfold_op. cbn.
  destruct (rtpSenderByTrack (peer w) !! webrtc.addr track); [|reflexivity].
  destruct (pc_RemoveTrack _ _); reflexivity.
Qed.

(** C1, as the code has it: for a track registered in the sender map,
    [RemoveTrack] asks the transport once to remove the track's sender and
    returns the transport's outcome as its result; the Peer, and with it
    the (track -> sender) association, is left as it was, whether the
    transport call succeeds or fails. *)
Theorem RemoveTrack_registered track w rtpSender :
  rtpSenderByTrack (peer w) !! webrtc.addr track = Some rtpSender ->
  (RemoveTrack track w).1 = (pc_RemoveTrack rtpSender (conn w)).1 /\
  conn (RemoveTrack track w).2 = (pc_RemoveTrack rtpSender (conn w)).2 /\
  trace (RemoveTrack track w).2 = trace w ++ [PC_RemoveTrack rtpSender] /\
  peer (RemoveTrack track w).2 = peer w /\
  rtpSenderByTrack (peer (RemoveTrack track w).2) !! webrtc.addr track
    = Some rtpSender.
Proof.
  intros Hreg. rewrite RemoveTrack_unfold, Hreg. cbn. auto.
Qed.

(** C5: for a track that is not in the sender map, [RemoveTrack] returns
    the cannot-find-sender error, calls nothing on the transport, and leaves
    the whole world, so also the sender map and its size, unchanged. *)
Theorem RemoveTrack_unregistered track w :
  rtpSenderByTrack (peer w) !! webrtc.addr track = None ->
  (RemoveTrack track w).1 =
    Some (Errorf ("Cannot find sender for track: " +:+ webrtc.ID track +:+
                  ", clientID: " +:+ clientID (peer w))) /\
  (RemoveTrack track w).2 = w /\
  trace (RemoveTrack track w).2 = trace w /\
  conn (RemoveTrack track w).2 = conn w /\
  rtpSenderByTrack (peer (RemoveTrack track w).2) = rtpSenderByTrack (peer w) /\
  size (rtpSenderByTrack (peer (RemoveTrack track w).2))
    = size (rtpSenderByTrack (peer w)).
Proof.
  intros Habs. rewrite RemoveTrack_unfold, Habs. cbn. auto 10.
Qed.

(** C6: [AddTrack] asks the transport once to add the track.  When the
    transport answers with a sender, [AddTrack] returns no error and the
    sender map holds exactly one entry for the track, the returned sender,
    every other entry being as before; when the transport fails, [AddTrack]
    returns an error that names the track's id and the Peer's client id,
    and the transport is not asked again. *)
Theorem AddTrack_spec track w :
  trace (AddTrack track w).2 = trace w ++ [PC_AddTrack track] /\
  conn (AddTrack track w).2 = (pc_AddTrack track (conn w)).2 /\
  match (pc_AddTrack track (conn w)).1 with
  | Ok rtpSender =>
      (AddTrack track w).1 = None /\
      rtpSenderByTrack (peer (AddTrack track w).2) !! webrtc.addr track
        = Some rtpSender /\
      entriesFor (webrtc.addr track) (rtpSenderByTrack (peer (AddTrack track w).2))
        = [(webrtc.addr track, rtpSender)] /\
      (forall k, k <> webrtc.addr track ->
         rtpSenderByTrack (peer (AddTrack track w).2) !! k
           = rtpSenderByTrack (peer w) !! k)
  | Err _ =>
      (AddTrack track w).1 =
        Some (Errorf ("Error adding track: " +:+ webrtc.ID track +:+
                      " to peer clientID: " +:+ clientID (peer w)))
  end.
Proof.
  rewrite AddTrack_unfold.
  destruct (pc_AddTrack track (conn w)) as [[s|e] c]; cbn.
  - repeat split.
    + apply lookup_insert_eq.
    + apply entriesFor_lookup, lookup_insert_eq.
    + intros k Hk. by apply lookup_insert_ne.
  - repeat split.
Qed.

(** C10: when [AddTrack] returns an error, the Peer is as it was before the
    call: the sender map has no new association and every entry it had. *)
Theorem AddTrack_error_atomic track w e :
  (AddTrack track w).1 = Some e ->
  peer (AddTrack track w).2 = peer w /\
  rtpSenderByTrack (peer (AddTrack track w).2) = rtpSenderByTrack (peer w).
Proof.
  rewrite AddTrack_unfold.
  destruct (pc_AddTrack track (conn w)) as [[s|e'] c]; cbn; [discriminate|auto].
Qed.

End Registry.

Section ICE.

Context {PC : Type} `{PeerConnection PC}.

Implicit Types (w : World PC) (s : webrtc.ICEConnectionState).

Lemma handleICEConnectionStateChange_unfold s w :
  handleICEConnectionStateChange s w =
  (tt, mkWorld (peer w) (conn w) (relays w)
         (trace w ++
          Log ("Peer connection state changed, clientID: " +:+ clientID (peer w) +:+
               ", state: " +:+ webrtc.String s)
          :: (if isTerminal s then [OnCloseCb (clientID (peer w))] else []))).
Proof.
  unfold handleICEConnectionStateChange. unfold_op. cbn.
  destruct (isTerminal s); cbn; rewrite <- ?app_assoc; reflexivity.
Qed.

Lemma countOnClose_app tr1 tr2 :
  countOnClose (tr1 ++ tr2) = (countOnClose tr1 + countOnClose tr2)%nat.
Proof. unfold countOnClose. by rewrite List.filter_app, length_app. Qed.

(** A state that is not disconnected, failed or closed never reaches
    [onClose]. *)
Lemma handleICE_nonterminal_no_onClose s w :
  isTerminal s = false ->
  countOnClose (trace (handleICEConnectionStateChange s w).2) = countOnClose (trace w).
Proof.
  intros Hs. rewrite handleICEConnectionStateChange_unfold, Hs. cbn [snd trace].
  rewrite countOnClose_app. cbn. lia.
Qed.

(** What the handler does over a whole sequence of events: [onClose] runs
    once per event of the terminal class. *)
Lemma run_ICE_countOnClose (states : list webrtc.ICEConnectionState) w :
  countOnClose (trace (run (map ICEConnectionStateChange states) w).2) =
  (countOnClose (trace w) + length (List.filter isTerminal states))%nat.
Proof.
  revert w. induction states as [|s states IH]; intros w; cbn.
  - lia.
  - unfold bind. rewrite handleICEConnectionStateChange_unfold. rewrite IH.
    cbn [snd trace]. rewrite countOnClose_app.
    destruct (isTerminal s) eqn:Hs; cbn; lia.
Qed.

End ICE.

(** C2, at the events (disconnected, failed): the sequence ends in a
    terminal state, and the code invokes [onClose] twice. *)
Theorem onClose_twice_on_disconnected_then_failed :
  countOnClose
    (trace (run [ICEConnectionStateChange webrtc.ICEConnectionStateDisconnected;
                 ICEConnectionStateChange webrtc.ICEConnectionStateFailed] alice).2)
  = 2%nat.
Proof. reflexivity. Qed.

Section Relays.

Context {PC : Type} `{PeerConnection PC}.

Implicit Types (w : World PC) (r : Relay) (i : nat).

(** *** The operations, run to their final world *)

Ltac flatten_trace := cbn; rewrite <- ?app_assoc; reflexivity.

Lemma handleTrack_unfold (rt : webrtc.Track) w :
  handleTrack rt w =
  let cid := clientID (peer w) in
  let asked :=
    [Log ("handleTrack " +:+ webrtc.ID rt +:+ " for clientID: " +:+ cid);
     Log ("startCopyingTrack: " +:+ webrtc.ID rt +:+ " for peer clientID: " +:+ cid);
     PC_NewTrack (webrtc.PayloadType rt) (webrtc.SSRC rt) "video" "pion"] in
  match pc_NewTrack (webrtc.PayloadType rt) (webrtc.SSRC rt) "video" "pion" (conn w) with
  | (Ok lt, c) =>
      (tt, mkWorld (mkPeer cid (localTracks (peer w) ++ [lt]) (rtpSenderByTrack (peer w)))
                   c
                   (relays w ++ [mkRelay rt lt (mkTicker rtcpPLIInterval false)
                                         true make_rtpBuf])
                   (trace w ++ asked ++
                    [Log ("startCopyingTrack: remote track " +:+ webrtc.ID rt +:+
                          " to new local track: " +:+ webrtc.ID lt +:+
                          " for clientID: " +:+ cid);
                     NewTicker rtcpPLIInterval;
                     OnTrackCb cid lt]))
  | (Err e, c) =>
      (tt, mkWorld (peer w) c (relays w)
                   (trace w ++ asked ++
                    [Log ("Error copying remote track: " +:+
                          Error (Errorf
                            ("startCopyingTrack: error creating new track, trackID: " +:+
                             webrtc.ID rt +:+ ", clientID: " +:+ cid +:+
                             ", error: " +:+ Error e)))]))
  end.
Proof.
  unfold handleTrack, startCopyingTrack. unfold_op. cbn.
  destruct (pc_NewTrack _ _ _ _ _) as [[lt|e] c]; flatten_trace.
Qed.

Lemma startCopyingTrack_result (rt : webrtc.Track) w :
  (startCopyingTrack rt w).1 =
  match (pc_NewTrack (webrtc.PayloadType rt) (webrtc.SSRC rt) "video" "pion" (conn w)).1 with
  | Ok lt => Ok lt
  | Err e =>
      Err (Errorf ("startCopyingTrack: error creating new track, trackID: " +:+
                   webrtc.ID rt +:+ ", clientID: " +:+ clientID (peer w) +:+
                   ", error: " +:+ Error e))
  end.
Proof.
  unfold startCopyingTrack. unfold_op. cbn.
  destruct (pc_NewTrack _ _ _ _ _) as [[lt|e] c]; reflexivity.
Qed.

Lemma pliTask_unfold i w :
  pliTask i w =
  match relays w !! i with
  | None => (tt, w)
  | Some r =>
      if stopped (ticker r) then (tt, w)
      else
        let pli := [rtcp.PictureLossIndication 0 (webrtc.SSRC (remoteTrack r))] in
        (tt, mkWorld (peer w) (pc_WriteRTCP pli (conn w)).2 (relays w)
               (trace w ++ PC_WriteRTCP pli ::
                match (pc_WriteRTCP pli (conn w)).1 with
                | Some e =>
                    [Log ("Error sending rtcp PLI for local track: " +:+
                          webrtc.ID (localTrack r) +:+ " for clientID: " +:+
                          clientID (peer w) +:+ ": " +:+ Error e)]
                | None => []
                end))
  end.
Proof.
  unfold pliTask. unfold_op. cbn.
  destruct (relays w !! i) as [r|]; [|reflexivity].
  destruct (stopped (ticker r)); [reflexivity|].
  destruct (pc_WriteRTCP _ _) as [[e|] c]; flatten_trace.
Qed.

Lemma copyTask_unfold i (io : CopyIO) w :
  copyTask i io w =
  match relays w !! i with
  | None => (tt, w)
  | Some r =>
      if copying r then
        let cid := clientID (peer w) in
        match io with
        | ReadFails e =>
            (tt, mkWorld (peer w) (conn w) (alter stopRelay i (relays w))
                   (trace w ++
                    [TrackRead i (remoteTrack r);
                     Log ("Error reading from remote track: " +:+
                          webrtc.ID (remoteTrack r) +:+ " for clientID: " +:+
                          cid +:+ ": " +:+ Error e);
                     TickerStop i]))
        | ReadThenWrite data werr =>
            let nb := readInto (rtpBuf r) data in
            let rs := <[i := withBuf r nb.2]> (relays w) in
            let io_done :=
              [TrackRead i (remoteTrack r);
               TrackWrite i (localTrack r) (take nb.1 nb.2)] in
            match werr with
            | None => (tt, mkWorld (peer w) (conn w) rs (trace w ++ io_done))
            | Some e =>
                if isErrClosedPipe e
                then (tt, mkWorld (peer w) (conn w) rs (trace w ++ io_done))
                else
                  (tt, mkWorld (peer w) (conn w) (alter stopRelay i rs)
                         (trace w ++ io_done ++
                          [Log ("Error writing to local track: " +:+
                                webrtc.ID (localTrack r) +:+ " for clientID: " +:+
                                cid +:+ ": " +:+ Error e);
                           TickerStop i]))
            end
        end
      else (tt, w)
  end.
Proof.
  unfold copyTask, returnFromCopy. unfold_op. cbn.
  destruct (relays w !! i) as [r|]; [|reflexivity].
  destruct (copying r); [|reflexivity]. cbn.
  destruct io as [e|data [e|]]; cbn.
  - flatten_trace.
  - destruct (isErrClosedPipe e); flatten_trace.
  - flatten_trace.
Qed.

(** *** The buffer *)

Lemma readInto_length buf data : length (readInto buf data).2 = length buf.
Proof.
  unfold readInto. cbn. rewrite length_app, length_take, length_drop. lia.
Qed.

Lemma readInto_exact buf data :
  (length data <= length buf)%nat ->
  take (readInto buf data).1 (readInto buf data).2 = data.
Proof.
  intros Hle. unfold readInto. cbn.
  rewrite Nat.min_l by done. rewrite firstn_all. apply take_app_length.
Qed.

(** *** Reading the trace *)

Lemma rtcpWritten_app (tr1 tr2 : list Action) :
  rtcpWritten (tr1 ++ tr2) = rtcpWritten tr1 ++ rtcpWritten tr2.
Proof.
  induction tr1 as [|a tr1 IH]; [done|].
  destruct a; cbn; rewrite ?IH, ?app_assoc; reflexivity.
Qed.

Lemma writesBy_app i (tr1 tr2 : list Action) :
  writesBy i (tr1 ++ tr2) = writesBy i tr1 ++ writesBy i tr2.
Proof.
  induction tr1 as [|a tr1 IH]; [done|].
  destruct a; cbn; rewrite ?IH; try reflexivity.
  case_bool_decide; reflexivity.
Qed.

Lemma writesBy_copyActions i (rt lt : webrtc.Track) (pkts : list (list byte)) :
  writesBy i (copyActions i rt lt pkts) = pkts.
Proof.
  induction pkts as [|d pkts IH]; [done|].
  cbn. rewrite bool_decide_eq_true_2 by done. f_equal. apply IH.
Qed.

Lemma writesBy_copyTrace i (tr : list Action) :
  writesBy i (copyTrace i tr) = writesBy i tr.
Proof.
  induction tr as [|a tr IH]; [done|].
  unfold copyTrace in *. destruct a; cbn; try apply IH.
  - destruct (bool_decide (relay = i)); cbn; apply IH.
  - destruct (bool_decide (relay = i)) eqn:Hj; cbn; rewrite ?Hj, IH; done.
Qed.

Lemma copyTrace_app i (tr1 tr2 : list Action) :
  copyTrace i (tr1 ++ tr2) = copyTrace i tr1 ++ copyTrace i tr2.
Proof. apply List.filter_app. Qed.

(** *** What every reachable world satisfies *)

Lemma relay_ok_new (rt lt : webrtc.Track) :
  relay_ok (mkRelay rt lt (mkTicker rtcpPLIInterval false) true make_rtpBuf).
Proof. split; [reflexivity | apply length_replicate]. Qed.

Lemma relay_ok_withBuf r (data : list byte) :
  relay_ok r -> relay_ok (withBuf r (readInto (rtpBuf r) data).2).
Proof. intros [Hp Hl]. split; [done|]. cbn [withBuf rtpBuf]. by rewrite readInto_length. Qed.

Lemma relay_ok_stopRelay r : relay_ok r -> relay_ok (stopRelay r).
Proof. intros [Hp Hl]. split; done. Qed.

Lemma deliver_relays_ok (inp : Input) w :
  Forall relay_ok (relays w) -> Forall relay_ok (relays (deliver inp w).2).
Proof.
  intros Hok. destruct inp as [s|rt|i|i io|t|t]; cbn [deliver].
  - by rewrite handleICEConnectionStateChange_unfold.
  - rewrite handleTrack_unfold. cbn zeta.
    destruct (pc_NewTrack _ _ _ _ _) as [[lt|e] c]; cbn [snd relays]; [|done].
    apply Forall_app. split; [done|]. constructor; [apply relay_ok_new | constructor].
  - rewrite pliTask_unfold.
    destruct (relays w !! i) as [r|]; [|done]. by destruct (stopped (ticker r)).
  - rewrite copyTask_unfold.
    destruct (relays w !! i) as [r|] eqn:Hi; [|done].
    destruct (copying r); [|done].
    assert (Hr : relay_ok r) by (eapply Forall_lookup in Hok; eauto).
    assert (Hbuf : forall data,
               Forall relay_ok (<[i := withBuf r (readInto (rtpBuf r) data).2]> (relays w))).
    { intros data. apply Forall_insert; [done | by apply relay_ok_withBuf]. }
    destruct io as [e|data [e|]]; cbn zeta.
    + cbn [snd relays]. apply Forall_alter; [done|]. intros; by apply relay_ok_stopRelay.
    + destruct (isErrClosedPipe e); cbn [snd relays]; [apply Hbuf|].
      apply Forall_alter; [apply Hbuf|]. intros; by apply relay_ok_stopRelay.
    + cbn [snd relays]. apply Hbuf.
  - unfold bind. rewrite AddTrack_unfold.
    by destruct (pc_AddTrack _ _) as [[s|e] c].
  - unfold bind. rewrite RemoveTrack_unfold.
    by destruct (rtpSenderByTrack (peer w) !! webrtc.addr t).
Qed.

Lemma deliver_rtcp_PLI (inp : Input) w :
  Forall (fun p => rtcp.isPLI p = true) (rtcpWritten (trace w)) ->
  Forall (fun p => rtcp.isPLI p = true) (rtcpWritten (trace (deliver inp w).2)).
Proof.
  intros Hok. destruct inp as [s|rt|i|i io|t|t]; cbn [deliver].
  - rewrite handleICEConnectionStateChange_unfold. cbn [snd trace].
    rewrite rtcpWritten_app. destruct (isTerminal s); cbn; by rewrite app_nil_r.
  - rewrite handleTrack_unfold. cbn zeta.
    destruct (pc_NewTrack _ _ _ _ _) as [[lt|e] c]; cbn [snd trace];
      rewrite !rtcpWritten_app; cbn; by rewrite app_nil_r.
  - rewrite pliTask_unfold.
    destruct (relays w !! i) as [r|]; [|done].
    destruct (stopped (ticker r)); [done|]. cbn zeta. cbn [snd trace].
    rewrite rtcpWritten_app. apply Forall_app. split; [done|].
    destruct (pc_WriteRTCP _ _).1; cbn; repeat constructor.
  - rewrite copyTask_unfold.
    destruct (relays w !! i) as [r|]; [|done].
    destruct (copying r); [|done].
    destruct io as [e|data [e|]]; cbn zeta; try destruct (isErrClosedPipe e);
      cbn [snd trace]; rewrite !rtcpWritten_app; cbn; by rewrite app_nil_r.
  - unfold bind, ret. rewrite AddTrack_unfold.
    destruct (pc_AddTrack _ _) as [[s|e] c]; cbn [snd trace];
      rewrite rtcpWritten_app; cbn; by rewrite app_nil_r.
  - unfold bind, ret. rewrite RemoveTrack_unfold.
    destruct (rtpSenderByTrack (peer w) !! webrtc.addr t); [|done].
    cbn [snd trace]. rewrite rtcpWritten_app; cbn; by rewrite app_nil_r.
Qed.

Lemma run_app (xs ys : list Input) w :
  (run (xs ++ ys) w).2 = (run ys (run xs w).2).2.
Proof.
  revert w. induction xs as [|x xs IH]; intros w; [done|].
  cbn [run app]. unfold bind. destruct (deliver x w) as [u w1]. apply IH.
Qed.

Lemma run_cons (x : Input) (xs : list Input) w :
  (run (x :: xs) w).2 = (run xs (deliver x w).2).2.
Proof. cbn [run]. unfold bind. by destruct (deliver x w). Qed.

Lemma reachable_run (inputs : list Input) w :
  reachable w -> reachable (run inputs w).2.
Proof.
  intros (cid & pc & pre & ->). exists cid, pc, (pre ++ inputs). by rewrite run_app.
Qed.

Lemma reachable_invariant w :
  reachable w ->
  Forall relay_ok (relays w) /\
  Forall (fun p => rtcp.isPLI p = true) (rtcpWritten (trace w)).
Proof.
  intros (cid & pc & inputs & ->).
  assert (Hinit : Forall relay_ok (relays (NewPeer cid pc)) /\
                  Forall (fun p => rtcp.isPLI p = true)
                         (rtcpWritten (trace (NewPeer cid pc)))).
  { split; constructor. }
  revert Hinit. generalize (NewPeer cid pc). 
  induction inputs as [|x xs IH]; intros w0 [Hr Hp]; [done|].
  rewrite run_cons. apply IH. split.
  - by apply deliver_relays_ok.
  - by apply deliver_rtcp_PLI.
Qed.

(** *** The copy loop *)

Lemma withBuf_id r : withBuf r (rtpBuf r) = r.
Proof. by destruct r. Qed.

(** An input other than an answer to the copy goroutine of relay [i] leaves
    that relay as it is, and adds none of its track I/O to the trace. *)
Lemma deliver_relay_other i (x : Input) w r :
  (forall io, x <> Copy i io) ->
  relays w !! i = Some r ->
  relays (deliver x w).2 !! i = Some r.
Proof.
  intros Hx Hi. destruct x as [s|rt|j|j io|t|t]; cbn [deliver].
  - by rewrite handleICEConnectionStateChange_unfold.
  - rewrite handleTrack_unfold. cbn zeta.
    destruct (pc_NewTrack _ _ _ _ _) as [[lt|e] c]; cbn [snd relays]; [|done].
    by apply lookup_app_l_Some.
  - rewrite pliTask_unfold.
    destruct (relays w !! j) as [rj|]; [|done]. by destruct (stopped (ticker rj)).
  - assert (Hji : j <> i) by (intros ->; by apply (Hx io)).
    rewrite copyTask_unfold.
    destruct (relays w !! j) as [rj|]; [|done].
    destruct (copying rj); [|done].
    destruct io as [e|data [e|]]; cbn zeta; try destruct (isErrClosedPipe e);
      cbn [snd relays];
      rewrite ?list_lookup_alter_ne, ?list_lookup_insert_ne by done; done.
  - unfold bind, ret. rewrite AddTrack_unfold.
    by destruct (pc_AddTrack _ _) as [[s|e] c].
  - unfold bind, ret. rewrite RemoveTrack_unfold.
    by destruct (rtpSenderByTrack (peer w) !! webrtc.addr t).
Qed.

Lemma deliver_copyTrace_other i (x : Input) w :
  (forall io, x <> Copy i io) ->
  copyTrace i (trace (deliver x w).2) = copyTrace i (trace w).
Proof.
  intros Hx. destruct x as [s|rt|j|j io|t|t]; cbn [deliver].
  - rewrite handleICEConnectionStateChange_unfold. cbn [snd trace].
    rewrite copyTrace_app. destruct (isTerminal s); cbn; by rewrite app_nil_r.
  - rewrite handleTrack_unfold. cbn zeta.
    destruct (pc_NewTrack _ _ _ _ _) as [[lt|e] c]; cbn [snd trace];
      rewrite !copyTrace_app; cbn; by rewrite app_nil_r.
  - rewrite pliTask_unfold.
    destruct (relays w !! j) as [rj|]; [|done].
    destruct (stopped (ticker rj)); [done|]. cbn zeta. cbn [snd trace].
    rewrite copyTrace_app. destruct (pc_WriteRTCP _ _).1; cbn; by rewrite app_nil_r.
  - assert (Hji : bool_decide (j = i) = false).
    { apply bool_decide_eq_false_2. intros ->. by apply (Hx io). }
    rewrite copyTask_unfold.
    destruct (relays w !! j) as [rj|]; [|done].
    destruct (copying rj); [|done].
    destruct io as [e|data [e|]]; cbn zeta; try destruct (isErrClosedPipe e);
      cbn [snd trace]; rewrite !copyTrace_app; cbn; rewrite Hji; cbn;
      by rewrite app_nil_r.
  - unfold bind, ret. rewrite AddTrack_unfold.
    destruct (pc_AddTrack _ _) as [[s|e] c]; cbn [snd trace];
      rewrite copyTrace_app; cbn; by rewrite app_nil_r.
  - unfold bind, ret. rewrite RemoveTrack_unfold.
    destruct (rtpSenderByTrack (peer w) !! webrtc.addr t); [|done].
    cbn [snd trace]. rewrite copyTrace_app; cbn; by rewrite app_nil_r.
Qed.

(** The copy goroutine of relay [i] over any schedule in which it reads the
    packets [pkts] and every write succeeds. *)
Lemma copy_run i (inputs : list Input) : forall (pkts : list (list byte)) w r,
  relays w !! i = Some r -> copying r = true ->
  length (rtpBuf r) = rtpBufSize ->
  Forall (fun d => (length d <= rtpBufSize)%nat) pkts ->
  copyInputs i inputs = map (fun d => ReadThenWrite d None) pkts ->
  copyTrace i (trace (run inputs w).2) =
    copyTrace i (trace w) ++ copyActions i (remoteTrack r) (localTrack r) pkts /\
  exists buf, length buf = rtpBufSize /\
              relays (run inputs w).2 !! i = Some (withBuf r buf).
Proof.
  induction inputs as [|x xs IH]; intros pkts w r Hi Hc Hlen Hfit Hin.
  - destruct pkts; [|discriminate]. cbn. rewrite app_nil_r. split; [done|].
    exists (rtpBuf r). by rewrite withBuf_id.
  - rewrite run_cons.
    assert (Hother : (forall io, x <> Copy i io) ->
                     copyInputs i xs = map (fun d => ReadThenWrite d None) pkts ->
                     copyTrace i (trace (run xs (deliver x w).2).2) =
                       copyTrace i (trace w) ++
                       copyActions i (remoteTrack r) (localTrack r) pkts /\
                     exists buf, length buf = rtpBufSize /\
                       relays (run xs (deliver x w).2).2 !! i = Some (withBuf r buf)).
    { intros Hx Hxs.
      rewrite <- (deliver_copyTrace_other i x w Hx).
      apply IH; try done. by apply deliver_relay_other. }
    destruct x as [s|rt|j|j io|t|t]; cbn [copyInputs] in Hin;
      try (apply Hother; [intros io'; discriminate | exact Hin]).
    case_bool_decide as Hj.
    2:{ apply Hother; [|exact Hin]. intros io' [= ? ?]. done. }
    subst j. destruct pkts as [|d pkts]; [discriminate|].
    cbn [map] in Hin. injection Hin as -> Hin.
    apply Forall_cons in Hfit as [Hd Hfit].
    cbn [deliver]. rewrite copyTask_unfold, Hi, Hc. cbn zeta. cbn [snd].
    rewrite readInto_exact by lia.
    set (b1 := (readInto (rtpBuf r) d).2).
    assert (Hb1 : length b1 = rtpBufSize) by (unfold b1; by rewrite readInto_length).
    destruct (IH pkts
                 (mkWorld (peer w) (conn w) (<[i := withBuf r b1]> (relays w))
                          (trace w ++ [TrackRead i (remoteTrack r);
                                       TrackWrite i (localTrack r) d]))
                 (withBuf r b1)) as (Htr & buf & Hbuf & Hrel); try done.
    { cbn [relays]. apply list_lookup_insert_eq. by eapply lookup_lt_Some. }
    split.
    + rewrite Htr. cbn [trace]. rewrite copyTrace_app. cbn.
      rewrite bool_decide_eq_true_2 by done. by rewrite <- app_assoc.
    + exists buf. split; [done|]. by rewrite Hrel.
Qed.

(** C3: in a reachable world where relay [i] is copying, take any schedule
    in which the copy goroutine of that relay reads the [N] packets [pkts]
    from the remote track (each fits the 1400-byte buffer, as [Read]
    guarantees) and every write to the local track succeeds, whatever else
    is interleaved.  The goroutine's track I/O is then, for each packet in
    turn, one read followed by one write to the local track of exactly the
    bytes read: [N] writes, byte-identical and in order, each made before
    the next packet is read, with the one buffer of the same capacity; the
    relay is still copying and its ticker is as before. *)
Theorem copy_law i r (inputs : list Input) (pkts : list (list byte)) w :
  reachable w ->
  relays w !! i = Some r -> copying r = true ->
  Forall (fun d => (length d <= rtpBufSize)%nat) pkts ->
  copyInputs i inputs = map (fun d => ReadThenWrite d None) pkts ->
  let w' := (run inputs w).2 in
  copyTrace i (trace w') =
    copyTrace i (trace w) ++ copyActions i (remoteTrack r) (localTrack r) pkts /\
  writesBy i (trace w') = writesBy i (trace w) ++ pkts /\
  length (writesBy i (copyActions i (remoteTrack r) (localTrack r) pkts)) = length pkts /\
  exists r', relays w' !! i = Some r' /\ copying r' = true /\
             ticker r' = ticker r /\ length (rtpBuf r') = rtpBufSize.
Proof.
  intros Hreach Hi Hc Hfit Hin w'.
  assert (Hok : relay_ok r).
  { apply reachable_invariant in Hreach as [Hrs _].
    eapply Forall_lookup in Hrs; eauto. }
  destruct (copy_run i inputs pkts w r Hi Hc (proj2 Hok) Hfit Hin)
    as (Htr & buf & Hbuf & Hrel).
  subst w'. split; [exact Htr|]. split.
  { rewrite <- (writesBy_copyTrace i (trace (run inputs w).2)), Htr.
    by rewrite writesBy_app, writesBy_copyTrace, writesBy_copyActions. }
  split.
  { by rewrite writesBy_copyActions. }
  exists (withBuf r buf). by rewrite Hrel.
Qed.

(** *** A stopped relay *)

Lemma stoppedRelay_own_input i (x : Input) w :
  stoppedRelay i w -> ofRelay i x = true -> deliver x w = (tt, w).
Proof.
  intros (r & Hi & Hc & Hs) Hx.
  destruct x as [s|rt|j|j io|t|t]; cbn in Hx; try discriminate;
    apply bool_decide_eq_true_1 in Hx; subst j; cbn [deliver].
  - by rewrite pliTask_unfold, Hi, Hs.
  - by rewrite copyTask_unfold, Hi, Hc.
Qed.

Lemma stoppedRelay_deliver i (x : Input) w :
  stoppedRelay i w -> stoppedRelay i (deliver x w).2.
Proof.
  intros Hst. destruct (ofRelay i x) eqn:Hx.
  - by rewrite (stoppedRelay_own_input i x w Hst Hx).
  - destruct Hst as (r & Hi & Hc & Hs). exists r. split; [|done].
    apply deliver_relay_other; [|done].
    intros io ->. cbn in Hx. by rewrite bool_decide_eq_true_2 in Hx.
Qed.

(** Once relay [i] has stopped, its ticks and the answers to its reads can
    be struck from any schedule: they change nothing. *)
Lemma stoppedRelay_erase i (inputs : list Input) : forall w,
  stoppedRelay i w ->
  run inputs w = run (List.filter (fun x => negb (ofRelay i x)) inputs) w.
Proof.
  induction inputs as [|x xs IH]; intros w Hst; [done|].
  cbn [run List.filter]. destruct (ofRelay i x) eqn:Hx; cbn [negb].
  - unfold bind. rewrite (stoppedRelay_own_input i x w Hst Hx). by apply IH.
  - cbn [run]. unfold bind.
    pose proof (stoppedRelay_deliver i x w Hst) as Hst'.
    destruct (deliver x w) as [u w1]. by apply IH.
Qed.

Lemma stoppedRelay_alter i (rs : list Relay) r (p : Peer) (c : PC) (tr : list Action) :
  rs !! i = Some r ->
  stoppedRelay i (mkWorld p c (alter stopRelay i rs) tr).
Proof.
  intros Hi. exists (stopRelay r). cbn [relays].
  by rewrite list_lookup_alter_eq, Hi.
Qed.

(** C4: in the copy loop of a running relay, a write that fails with
    [io.ErrClosedPipe] is tolerated: nothing is logged, the relay keeps
    copying and its ticker keeps running.  A failed read, and a write that
    fails with any other error, make the copy task return; its deferred
    [ticker.Stop()] is the last thing it does, the periodic task writes no
    further PLI, and in whatever follows the ticks and reads of this relay
    have no effect. *)
Theorem copy_loop_failures i r w :
  relays w !! i = Some r -> copying r = true -> stopped (ticker r) = false ->
  (forall data,
     let w' := (copyTask i (ReadThenWrite data (Some ErrClosedPipe)) w).2 in
     trace w' = trace w ++
                [TrackRead i (remoteTrack r);
                 TrackWrite i (localTrack r)
                            (take (readInto (rtpBuf r) data).1
                                  (readInto (rtpBuf r) data).2)] /\
     exists r', relays w' !! i = Some r' /\ copying r' = true /\
                stopped (ticker r') = false) /\
  (forall e,
     let w' := (copyTask i (ReadFails e) w).2 in
     stoppedRelay i w' /\
     last (trace w') = Some (TickerStop i) /\
     pliTask i w' = (tt, w') /\
     forall inputs,
       run inputs w' = run (List.filter (fun x => negb (ofRelay i x)) inputs) w') /\
  (forall data e,
     e <> ErrClosedPipe ->
     let w' := (copyTask i (ReadThenWrite data (Some e)) w).2 in
     stoppedRelay i w' /\
     last (trace w') = Some (TickerStop i) /\
     pliTask i w' = (tt, w') /\
     forall inputs,
       run inputs w' = run (List.filter (fun x => negb (ofRelay i x)) inputs) w').
Proof.
  intros Hi Hc Hs.
  assert (Hstop : forall w', stoppedRelay i w' ->
            stoppedRelay i w' /\ pliTask i w' = (tt, w') /\
            forall inputs,
              run inputs w' = run (List.filter (fun x => negb (ofRelay i x)) inputs) w').
  { intros w' Hst. split; [done|]. split.
    - apply (stoppedRelay_own_input i (Tick i) w' Hst). cbn.
      by apply bool_decide_eq_true_2.
    - intros inputs. by apply stoppedRelay_erase. }
  split; [|split].
  - intros data w'. subst w'. rewrite copyTask_unfold, Hi, Hc. cbn.
    split; [done|]. exists (withBuf r (readInto (rtpBuf r) data).2). split; [|done].
    apply list_lookup_insert_eq. by eapply lookup_lt_Some.
  - intros e w'. subst w'. rewrite copyTask_unfold, Hi, Hc. cbn zeta. cbn [snd].
    match goal with |- stoppedRelay i ?w1 /\ _ =>
      destruct (Hstop w1) as (Hst & Hpli & Herase) end.
    { by eapply stoppedRelay_alter. }
    split; [done|]. split; [|done].
    cbn [trace]. by rewrite last_app.
  - intros data e Hne w'. subst w'. rewrite copyTask_unfold, Hi, Hc. cbn zeta.
    assert (isErrClosedPipe e = false) as -> by (by destruct e).
    cbn [snd].
    match goal with |- stoppedRelay i ?w1 /\ _ =>
      destruct (Hstop w1) as (Hst & Hpli & Herase) end.
    { eapply stoppedRelay_alter. apply list_lookup_insert_eq. by eapply lookup_lt_Some. }
    split; [done|]. split; [|done].
    cbn [trace]. by rewrite !last_app.
Qed.

(** *** Inbound tracks *)

(** C7, as the code has it: when the relay for an inbound remote track
    starts, returning the local track [lt], the transport was asked once for
    a track with the remote track's payload type and SSRC and the two fixed
    strings "video" and "pion"; with a transport that creates the track it
    is asked for, [lt] has the remote track's payload type and SSRC, the
    fixed id "video" and the fixed label "pion", and it is the one track
    [handleTrack] appends to what [Tracks()] returns and hands to [onTrack].
    Nothing is said of the kind of [lt]: the code does not choose it. *)
Theorem handleTrack_mirrors_remote (rt lt : webrtc.Track) w :
  honoursNewTrack PC ->
  (startCopyingTrack rt w).1 = Ok lt ->
  let w' := (handleTrack rt w).2 in
  webrtc.PayloadType lt = webrtc.PayloadType rt /\
  webrtc.SSRC lt = webrtc.SSRC rt /\
  webrtc.ID lt = "video" /\
  webrtc.Label lt = "pion" /\
  (Tracks w').1 = localTracks (peer w) ++ [lt] /\
  relays w' = relays w ++ [mkRelay rt lt (mkTicker rtcpPLIInterval false)
                                   true make_rtpBuf] /\
  trace w' =
    trace w ++
    [Log ("handleTrack " +:+ webrtc.ID rt +:+ " for clientID: " +:+ clientID (peer w));
     Log ("startCopyingTrack: " +:+ webrtc.ID rt +:+ " for peer clientID: " +:+
          clientID (peer w));
     PC_NewTrack (webrtc.PayloadType rt) (webrtc.SSRC rt) "video" "pion";
     Log ("startCopyingTrack: remote track " +:+ webrtc.ID rt +:+
          " to new local track: " +:+ webrtc.ID lt +:+
          " for clientID: " +:+ clientID (peer w));
     NewTicker rtcpPLIInterval;
     OnTrackCb (clientID (peer w)) lt].
Proof.
  intros Hpc Hstart w'. subst w'.
  rewrite startCopyingTrack_result in Hstart. rewrite handleTrack_unfold. cbn zeta.
  destruct (pc_NewTrack _ _ _ _ _) as [[lt'|e] c] eqn:Hnew; cbn in Hstart; [|discriminate].
  injection Hstart as ->.
  destruct (Hpc _ _ _ _ _ _ _ Hnew) as (Hpt & Hssrc & Hid & Hlabel).
  cbn. auto 10.
Qed.

(** C8: when the transport fails to create the local track, the inbound
    track event changes nothing in the Peer and starts no relay: the
    error is logged, no local track is appended, and [onTrack] is not
    invoked. *)
Theorem handleTrack_NewTrack_fails (rt : webrtc.Track) w e :
  (pc_NewTrack (webrtc.PayloadType rt) (webrtc.SSRC rt) "video" "pion" (conn w)).1
    = Err e ->
  let w' := (handleTrack rt w).2 in
  peer w' = peer w /\
  (Tracks w').1 = localTracks (peer w) /\
  relays w' = relays w /\
  trace w' =
    trace w ++
    [Log ("handleTrack " +:+ webrtc.ID rt +:+ " for clientID: " +:+ clientID (peer w));
     Log ("startCopyingTrack: " +:+ webrtc.ID rt +:+ " for peer clientID: " +:+
          clientID (peer w));
     PC_NewTrack (webrtc.PayloadType rt) (webrtc.SSRC rt) "video" "pion";
     Log ("Error copying remote track: " +:+
          "startCopyingTrack: error creating new track, trackID: " +:+
          webrtc.ID rt +:+ ", clientID: " +:+ clientID (peer w) +:+
          ", error: " +:+ Error e)] /\
  (forall cid t, OnTrackCb cid t ∈ trace w' -> OnTrackCb cid t ∈ trace w).
Proof.
  intros Hnew w'. subst w'. rewrite handleTrack_unfold. cbn zeta.
  destruct (pc_NewTrack _ _ _ _ _) as [[lt|e'] c]; cbn in Hnew; [discriminate|].
  injection Hnew as ->. cbn.
  repeat split; [].
  intros cid t Hin. apply elem_of_app in Hin as [Hin|Hin]; [done|].
  repeat (apply elem_of_cons in Hin as [Hin|Hin]; [discriminate|]).
  inversion Hin.
Qed.

(** *** The periodic task *)

(** C9: in a reachable world, a relay whose ticker runs has a ticker of
    period 3 s; each tick makes the periodic task hand the transport
    exactly one RTCP packet, a Picture Loss Indication whose media SSRC is
    the remote track's; when that write fails the failure is logged; in
    either case the relays, and so the ticker, are as before; and every
    RTCP packet the Peer has ever handed to the transport is a Picture
    Loss Indication. *)
Theorem pli_every_tick i r w :
  reachable w ->
  relays w !! i = Some r -> stopped (ticker r) = false ->
  let pli := rtcp.PictureLossIndication 0 (webrtc.SSRC (remoteTrack r)) in
  let w' := (pliTask i w).2 in
  period (ticker r) = 3 * time.Second /\
  rtcpWritten (trace w') = rtcpWritten (trace w) ++ [pli] /\
  trace w' =
    trace w ++ PC_WriteRTCP [pli] ::
    match (pc_WriteRTCP [pli] (conn w)).1 with
    | Some e =>
        [Log ("Error sending rtcp PLI for local track: " +:+
              webrtc.ID (localTrack r) +:+ " for clientID: " +:+
              clientID (peer w) +:+ ": " +:+ Error e)]
    | None => []
    end /\
  relays w' = relays w /\
  Forall (fun p => rtcp.isPLI p = true) (rtcpWritten (trace w')).
Proof.
  intros Hreach Hi Hs pli w'.
  assert (Hreach' : reachable w').
  { subst w'. destruct Hreach as (cid & pc & pre & ->).
    exists cid, pc, (pre ++ [Tick i]). rewrite run_app, run_cons. reflexivity. }
  pose proof (reachable_invariant _ Hreach) as [Hrs _].
  pose proof (reachable_invariant _ Hreach') as [_ Hpli].
  split.
  { eapply Forall_lookup in Hrs; eauto. destruct Hrs as [Hp _].
    rewrite Hp. unfold rtcpPLIInterval. lia. }
  split; [|split; [|split]]; [| | |exact Hpli];
    subst w'; rewrite pliTask_unfold, Hi, Hs; cbn zeta; cbn [snd trace relays].
  - rewrite rtcpWritten_app. f_equal.
    destruct (pc_WriteRTCP _ _).1; reflexivity.
  - reflexivity.
  - reflexivity.
Qed.

End Relays.

(** * The properties at work on the scripted transport *)

Lemma FakePC_honoursNewTrack : honoursNewTrack FakePC.
Proof.
  intros pt ssrc s1 s2 c t c' Hnew. cbn in Hnew.
  destruct (failNewTrack c); [discriminate|].
  injection Hnew as <- _. by repeat split.
Qed.

Lemma alicePublishing_reachable : reachable alicePublishing.
Proof. exists "alice", fakeOK, [TrackPublished cam]. reflexivity. Qed.

(** C1 as stated fails: [cam] is registered, [RemoveTrack cam] succeeds, and
    the entry for [cam] is still in the sender map. *)
Lemma RemoveTrack_keeps_entry_counterexample :
  rtpSenderByTrack (peer aliceSubscribed) !! webrtc.addr cam = Some 100%positive /\
  (RemoveTrack cam aliceSubscribed).1 = None /\
  ~ (rtpSenderByTrack (peer (RemoveTrack cam aliceSubscribed).2) !! webrtc.addr cam = None).
Proof. split; [reflexivity|]. split; [reflexivity|]. discriminate. Qed.

(** C1 on Alice's Peer: removing the registered [cam] succeeds and leaves its
    entry in the sender map. *)
Lemma RemoveTrack_registered_witness :
  rtpSenderByTrack (peer aliceSubscribed) !! webrtc.addr cam = Some 100%positive /\
  (RemoveTrack cam aliceSubscribed).1 = None /\
  trace (RemoveTrack cam aliceSubscribed).2
    = trace aliceSubscribed ++ [PC_RemoveTrack 100%positive] /\
  rtpSenderByTrack (peer (RemoveTrack cam aliceSubscribed).2) !! webrtc.addr cam
    = Some 100%positive.
Proof.
  assert (Hreg : rtpSenderByTrack (peer aliceSubscribed) !! webrtc.addr cam
                 = Some 100%positive) by reflexivity.
  destruct (RemoveTrack_registered cam aliceSubscribed 100%positive Hreg)
    as (Hres & _ & Htr & _ & Hmap).
  split; [exact Hreg|]. split; [exact Hres|]. split; [exact Htr | exact Hmap].
Defined.

(** C5 on Alice's fresh Peer: [cam] was never added. *)
Lemma RemoveTrack_unregistered_witness :
  rtpSenderByTrack (peer alice) !! webrtc.addr cam = None /\
  (RemoveTrack cam alice).1 =
    Some (errorString "Cannot find sender for track: cam, clientID: alice") /\
  (RemoveTrack cam alice).2 = alice.
Proof.
  assert (Habs : rtpSenderByTrack (peer alice) !! webrtc.addr cam = None) by reflexivity.
  destruct (RemoveTrack_unregistered cam alice Habs) as (Hres & Hw & _).
  split; [exact Habs|]. split; [exact Hres | exact Hw].
Defined.

(** C10 on Bob's Peer, whose transport refuses every track. *)
Lemma AddTrack_error_atomic_witness :
  (AddTrack cam bob).1 = Some (errorString "Error adding track: cam to peer clientID: bob") /\
  rtpSenderByTrack (peer (AddTrack cam bob).2) = rtpSenderByTrack (peer bob).
Proof.
  assert (Herr : (AddTrack cam bob).1
                 = Some (errorString "Error adding track: cam to peer clientID: bob"))
    by reflexivity.
  split; [exact Herr|]. exact (proj2 (AddTrack_error_atomic cam bob _ Herr)).
Defined.

(** C3 on Alice's relay: two packets, with a tick and an ICE event in
    between. *)
Lemma copy_law_witness :
  relays alicePublishing !! 0%nat = Some aliceRelay /\
  writesBy 0
    (trace (run [Copy 0 (ReadThenWrite [x01; x02] None); Tick 0;
                 ICEConnectionStateChange webrtc.ICEConnectionStateConnected;
                 Copy 0 (ReadThenWrite [x03] None)] alicePublishing).2)
  = [[x01; x02]; [x03]].
Proof.
  assert (Hrel : relays alicePublishing !! 0%nat = Some aliceRelay) by reflexivity.
  assert (Hfit : Forall (fun d : list byte => (length d <= rtpBufSize)%nat)
                        [[x01; x02]; [x03]]).
  { repeat constructor; cbn; unfold rtpBufSize; lia. }
  destruct (copy_law 0 aliceRelay
              [Copy 0 (ReadThenWrite [x01; x02] None); Tick 0;
               ICEConnectionStateChange webrtc.ICEConnectionStateConnected;
               Copy 0 (ReadThenWrite [x03] None)]
              [[x01; x02]; [x03]] alicePublishing
              alicePublishing_reachable Hrel eq_refl Hfit eq_refl) as (_ & Hwr & _).
  split; [exact Hrel | exact Hwr].
Defined.

(** C4 on Alice's relay: a read that fails, and a write nobody listens to. *)
Lemma copy_loop_failures_witness :
  relays alicePublishing !! 0%nat = Some aliceRelay /\
  stoppedRelay 0 (copyTask 0 (ReadFails (errorString "EOF")) alicePublishing).2 /\
  trace (copyTask 0 (ReadThenWrite [x01] (Some ErrClosedPipe)) alicePublishing).2
    = trace alicePublishing ++ [TrackRead 0 cam; TrackWrite 0 aliceVideo [x01]].
Proof.
  assert (Hrel : relays alicePublishing !! 0%nat = Some aliceRelay) by reflexivity.
  destruct (copy_loop_failures 0 aliceRelay alicePublishing Hrel eq_refl eq_refl)
    as (Hpipe & Hread & _).
  split; [exact Hrel|]. split.
  - exact (proj1 (Hread (errorString "EOF"))).
  - exact (proj1 (Hpipe [x01])).
Defined.

(** C7 as stated fails: Alice publishes the audio track [mic] (payload type
    111) through a transport that creates the track it is asked for; the one
    local track registered has the id "video" and the kind audio. *)
Lemma handleTrack_kind_not_fixed_counterexample :
  honoursNewTrack FakePC /\
  (Tracks (handleTrack mic alice).2).1 = [aliceAudio] /\
  webrtc.ID aliceAudio = "video" /\
  ~ (webrtc.Kind aliceAudio = webrtc.RTPCodecTypeVideo).
Proof.
  split; [exact FakePC_honoursNewTrack|]. split; [reflexivity|].
  split; [reflexivity | discriminate].
Qed.

(** C7 on Alice's Peer: SSRC 1111 and payload type 96 yield one local track
    with SSRC 1111 and payload type 96. *)
Lemma handleTrack_mirrors_remote_witness :
  (startCopyingTrack cam alice).1 = Ok aliceVideo /\
  (Tracks (handleTrack cam alice).2).1 = [aliceVideo] /\
  webrtc.SSRC aliceVideo = 1111 /\ webrtc.PayloadType aliceVideo = 96 /\
  webrtc.ID aliceVideo = "video" /\ webrtc.Label aliceVideo = "pion".
Proof.
  assert (Hstart : (startCopyingTrack cam alice).1 = Ok aliceVideo) by reflexivity.
  destruct (handleTrack_mirrors_remote cam aliceVideo alice FakePC_honoursNewTrack Hstart)
    as (Hpt & Hssrc & Hid & Hlabel & Htracks & _).
  split; [exact Hstart|]. split; [exact Htracks|]. split; [exact Hssrc|].
  split; [exact Hpt|]. split; [exact Hid | exact Hlabel].
Defined.

(** C8 on Bob's Peer, whose transport creates no track. *)
Lemma handleTrack_NewTrack_fails_witness :
  (pc_NewTrack (webrtc.PayloadType cam) (webrtc.SSRC cam) "video" "pion" (conn bob)).1
    = Err (errorString "codec not found") /\
  peer (handleTrack cam bob).2 = peer bob /\
  (Tracks (handleTrack cam bob).2).1 = [] /\
  relays (handleTrack cam bob).2 = [].
Proof.
  assert (Hnew : (pc_NewTrack (webrtc.PayloadType cam) (webrtc.SSRC cam) "video" "pion"
                              (conn bob)).1 = Err (errorString "codec not found"))
    by reflexivity.
  destruct (handleTrack_NewTrack_fails cam bob _ Hnew) as (Hpeer & Htracks & Hrel & _).
  split; [exact Hnew|]. split; [exact Hpeer|]. split; [exact Htracks | exact Hrel].
Defined.

(** C9 on Alice's relay: one tick, one PLI for SSRC 1111. *)
Lemma pli_every_tick_witness :
  relays alicePublishing !! 0%nat = Some aliceRelay /\
  period (ticker aliceRelay) = 3000000000 /\
  rtcpWritten (trace (pliTask 0 alicePublishing).2) = [rtcp.PictureLossIndication 0 1111].
Proof.
  assert (Hrel : relays alicePublishing !! 0%nat = Some aliceRelay) by reflexivity.
  destruct (pli_every_tick 0 aliceRelay alicePublishing
              alicePublishing_reachable Hrel eq_refl) as (Hper & Hrtcp & _).
  split; [exact Hrel|]. split; [exact Hper | exact Hrtcp].
Defined.

(** * The Peer over its lifetime *)

Section Lifetime.

Context {PC : Type} `{PeerConnection PC}.

Implicit Types (w : World PC) (r : Relay) (i : nat) (x : Input).

(** Runs one input to its final world, one goal per path through the code. *)
Ltac step_cases x w :=
  let s := fresh "s" in let rt := fresh "rt" in let j := fresh "j" in
  let io := fresh "io" in let t := fresh "t" in
  let rj := fresh "rj" in let e := fresh "e" in let c := fresh "c" in
  let lt := fresh "lt" in let data := fresh "data" in let sd := fresh "sd" in
  destruct x as [s|rt|j|j io|t|t]; cbn [deliver];
  [ rewrite handleICEConnectionStateChange_unfold; destruct (isTerminal s) eqn:?
  | rewrite handleTrack_unfold; cbn zeta;
    destruct (pc_NewTrack _ _ _ _ _) as [[lt|e] c] eqn:?
  | rewrite pliTask_unfold;
    destruct (relays w !! j) as [rj|] eqn:?;
    [ destruct (stopped (ticker rj)) eqn:?;
      [ | cbn zeta; destruct (pc_WriteRTCP _ _) as [[e|] c] eqn:? ] | ]
  | rewrite copyTask_unfold;
    destruct (relays w !! j) as [rj|] eqn:?;
    [ destruct (copying rj) eqn:?;
      [ destruct io as [e|data [e|]]; cbn zeta;
        [ | destruct (isErrClosedPipe e) eqn:? | ] | ] | ]
  | unfold bind, ret; rewrite AddTrack_unfold;
    destruct (pc_AddTrack _ _) as [[sd|e] c] eqn:?
  | unfold bind, ret; rewrite RemoveTrack_unfold;
    destruct (rtpSenderByTrack (peer w) !! webrtc.addr t) as [sd|] eqn:? ];
  cbn [fst snd peer conn relays trace].

Lemma reachable_NewPeer (cid : string) (pc : PC) : reachable (NewPeer cid pc).
Proof. by exists cid, pc, []. Qed.

Lemma run_snoc (inputs : list Input) x w :
  (run (inputs ++ [x]) w).2 = (deliver x (run inputs w).2).2.
Proof. rewrite run_app, run_cons. reflexivity. Qed.

Lemma reachable_deliver x w : reachable w -> reachable (deliver x w).2.
Proof.
  intros (cid & pc & pre & ->). exists cid, pc, (pre ++ [x]). by rewrite run_snoc.
Qed.

(** Induction over the worlds a Peer can be in. *)
Lemma reachable_induction (P : World PC -> Prop) :
  (forall cid pc, P (NewPeer cid pc)) ->
  (forall x w, reachable w -> P w -> P (deliver x w).2) ->
  forall w, reachable w -> P w.
Proof.
  intros Hinit Hstep w (cid & pc & inputs & ->).
  induction inputs as [|x inputs IH] using rev_ind; [apply Hinit|].
  rewrite run_snoc. apply Hstep; [|exact IH]. by exists cid, pc, inputs.
Qed.

(** *** The client id *)

Lemma deliver_clientID x w : clientID (peer (deliver x w).2) = clientID (peer w).
Proof. step_cases x w; reflexivity. Qed.

(** The client id a Peer was constructed with is the one [ClientID()]
    returns after any sequence of API calls, events, ticks and reads. *)
Theorem ClientID_immutable (cid : string) (pc : PC) (inputs : list Input) :
  (ClientID (run inputs (NewPeer cid pc)).2).1 = cid.
Proof.
  cbn. induction inputs as [|x inputs IH] using rev_ind; [reflexivity|].
  by rewrite run_snoc, deliver_clientID.
Qed.

(** *** The local tracks *)

Lemma relayTracks_insert (rs : list Relay) i r (buf : list byte) :
  rs !! i = Some r ->
  relayTracks <$> <[i := withBuf r buf]> rs = relayTracks <$> rs.
Proof.
  intros Hi. rewrite list_fmap_insert. apply list_insert_id.
  by rewrite list_lookup_fmap, Hi.
Qed.

Lemma relayTracks_alter (rs : list Relay) i :
  relayTracks <$> alter stopRelay i rs = relayTracks <$> rs.
Proof.
  rewrite (list_fmap_alter relayTracks stopRelay id).
  - by apply list_alter_id.
  - by apply Forall_forall.
Qed.

Lemma onTrackCalls_app (tr1 tr2 : list Action) :
  onTrackCalls (tr1 ++ tr2) = onTrackCalls tr1 ++ onTrackCalls tr2.
Proof.
  induction tr1 as [|a tr1 IH]; [done|]. destruct a; cbn; by rewrite ?IH.
Qed.

(** What one input adds: at most one relay, with its local track appended
    to the Peer's list and handed to [onTrack]. *)
Lemma deliver_tracks x w :
  exists new : list (webrtc.Track * webrtc.Track),
    relayTracks <$> relays (deliver x w).2 = (relayTracks <$> relays w) ++ new /\
    localTracks (peer (deliver x w).2) = localTracks (peer w) ++ new.*2 /\
    onTrackCalls (trace (deliver x w).2) =
      onTrackCalls (trace w) ++ ((fun p => (clientID (peer w), p.2)) <$> new).
Proof.
  step_cases x w;
    try (exists []; rewrite ?onTrackCalls_app, ?relayTracks_alter,
                    ?relayTracks_insert, ?relayTracks_alter by done;
         cbn; by rewrite ?app_nil_r).
  exists [(rt, lt)]. rewrite fmap_app, onTrackCalls_app. by destruct (peer w).
Qed.

(** In every world a Peer can be in, [Tracks()] lists exactly the local
    tracks of the relays started so far, in the order they were started,
    whether those relays still run or have stopped. *)
Theorem Tracks_are_the_relays_local_tracks w :
  reachable w ->
  (Tracks w).1 = localTrack <$> relays w /\
  length (Tracks w).1 = length (relays w).
Proof.
  intros Hreach.
  assert (Heq : localTracks (peer w) = (relayTracks <$> relays w).*2).
  { revert w Hreach. apply reachable_induction; [done|].
    intros x w _ IH. destruct (deliver_tracks x w) as (new & Hrel & Hloc & _).
    by rewrite Hloc, Hrel, IH, fmap_app. }
  assert (Hmap : (Tracks w).1 = localTrack <$> relays w).
  { cbn. rewrite Heq, <- list_fmap_compose. reflexivity. }
  split; [exact Hmap|]. by rewrite Hmap, length_fmap.
Qed.

(** [Tracks()] only ever grows at its end: whatever happens to a Peer, the
    tracks it listed before are still listed, in the same places. *)
Theorem Tracks_append_only (inputs : list Input) w :
  localTracks (peer w) `prefix_of` (Tracks (run inputs w).2).1.
Proof.
  cbn. induction inputs as [|x inputs IH] using rev_ind; [done|].
  rewrite run_snoc. etrans; [exact IH|].
  destruct (deliver_tracks x (run inputs w).2) as (new & _ & Hloc & _).
  rewrite Hloc. by apply prefix_app_r.
Qed.

(** In every world a Peer can be in, [onTrack] has been called exactly once
    for each local track, in the order of [Tracks()], each time with the
    Peer's client id. *)
Theorem onTrack_once_per_local_track w :
  reachable w ->
  onTrackCalls (trace w) = (fun t => (clientID (peer w), t)) <$> (Tracks w).1.
Proof.
  cbn. revert w. apply reachable_induction; [done|].
  intros x w _ IH. destruct (deliver_tracks x w) as (new & _ & Hloc & Hcb).
  rewrite Hcb, Hloc, IH, deliver_clientID, fmap_app.
  by rewrite <- list_fmap_compose.
Qed.

(** *** The sender map *)

(** One input either leaves the sender map alone or is an [AddTrack] that
    stores the sender the transport returned. *)
Lemma deliver_senders x w :
  rtpSenderByTrack (peer (deliver x w).2) = rtpSenderByTrack (peer w) \/
  exists track rtpSender,
    x = CallAddTrack track /\
    rtpSenderByTrack (peer (deliver x w).2)
      = <[webrtc.addr track := rtpSender]> (rtpSenderByTrack (peer w)).
Proof. step_cases x w; try (by left). right. by exists t, sd. Qed.

(** No entry ever leaves the sender map: whatever happens to a Peer,
    successful and failed [RemoveTrack] calls included, every track that had
    a sender still has one. *)
Theorem senders_never_removed (inputs : list Input) w :
  dom (rtpSenderByTrack (peer w)) ⊆ dom (rtpSenderByTrack (peer (run inputs w).2)).
Proof.
  induction inputs as [|x inputs IH] using rev_ind; [done|].
  rewrite run_snoc. etrans; [exact IH|].
  destruct (deliver_senders x (run inputs w).2) as [-> | (t & s & _ & ->)]; [done|].
  apply dom_insert_subseteq.
Qed.

(** Only [AddTrack] writes the sender map: a schedule without an [AddTrack]
    call, whatever tracks are published, removed, copied or closed in it,
    leaves the map exactly as it was. *)
Theorem senders_changed_by_AddTrack_only (inputs : list Input) w :
  forallb (fun x => negb (isCallAddTrack x)) inputs = true ->
  rtpSenderByTrack (peer (run inputs w).2) = rtpSenderByTrack (peer w).
Proof.
  induction inputs as [|x inputs IH] using rev_ind; intros Hno; [done|].
  rewrite forallb_app in Hno. apply andb_true_iff in Hno as [Hpre Hx].
  cbn in Hx. rewrite andb_true_r in Hx.
  rewrite run_snoc.
  destruct (deliver_senders x (run inputs w).2) as [-> | (t & s & -> & _)].
  - by apply IH.
  - discriminate.
Qed.

(** After a successful [AddTrack], [RemoveTrack] of the same track asks the
    transport to remove exactly the sender that [AddTrack] received, and
    returns what the transport then answers. *)
Theorem AddTrack_then_RemoveTrack (track : webrtc.Track) w (rtpSender : webrtc.RTPSender) :
  (pc_AddTrack track (conn w)).1 = Ok rtpSender ->
  let w1 := (AddTrack track w).2 in
  conn w1 = (pc_AddTrack track (conn w)).2 /\
  (RemoveTrack track w1).1 = (pc_RemoveTrack rtpSender (conn w1)).1 /\
  trace (RemoveTrack track w1).2
    = trace w ++ [PC_AddTrack track; PC_RemoveTrack rtpSender].
Proof.
  intros Hadd w1. subst w1. rewrite AddTrack_unfold.
  destruct (pc_AddTrack track (conn w)) as [[s|e] c]; cbn in Hadd; [|discriminate].
  injection Hadd as ->. cbn [snd conn].
  rewrite RemoveTrack_unfold. cbn [peer rtpSenderByTrack].
  rewrite lookup_insert_eq. cbn. by rewrite <- app_assoc.
Qed.

(** A successful [AddTrack] of a track that already has a sender replaces
    that sender in place: the map keeps its size and the transport is not
    asked to remove the old sender.  For a track without a sender the map
    grows by one entry. *)
Theorem AddTrack_replaces_or_adds (track : webrtc.Track) w (rtpSender : webrtc.RTPSender) :
  (pc_AddTrack track (conn w)).1 = Ok rtpSender ->
  let m := rtpSenderByTrack (peer w) in
  let w' := (AddTrack track w).2 in
  rtpSenderByTrack (peer w') = <[webrtc.addr track := rtpSender]> m /\
  size (rtpSenderByTrack (peer w')) =
    match m !! webrtc.addr track with
    | Some _ => size m
    | None => S (size m)
    end /\
  transportCalls (trace w') = transportCalls (trace w) ++ [PC_AddTrack track].
Proof.
  intros Hadd m w'. subst m w'. rewrite AddTrack_unfold.
  destruct (pc_AddTrack track (conn w)) as [[s|e] c]; cbn in Hadd; [|discriminate].
  injection Hadd as ->. cbn [snd peer rtpSenderByTrack trace].
  split; [done|]. split.
  - destruct (rtpSenderByTrack (peer w) !! webrtc.addr track) eqn:Hk.
    + by apply map_size_insert_Some.
    + by apply map_size_insert_None.
  - unfold transportCalls. by rewrite List.filter_app.
Qed.

(** [RemoveTrack] can be repeated: since the entry stays, [n] calls for a
    registered track ask the transport [n] times to remove the same sender,
    and change nothing in the Peer. *)
Theorem RemoveTrack_repeatable (track : webrtc.Track) (rtpSender : webrtc.RTPSender)
    (n : nat) w :
  rtpSenderByTrack (peer w) !! webrtc.addr track = Some rtpSender ->
  let w' := (run (replicate n (CallRemoveTrack track)) w).2 in
  trace w' = trace w ++ replicate n (PC_RemoveTrack rtpSender) /\
  peer w' = peer w /\
  relays w' = relays w.
Proof.
  intros Hreg w'. subst w'. revert w Hreg.
  induction n as [|n IH]; intros w Hreg.
  - cbn. by rewrite app_nil_r.
  - rewrite replicate_S, run_cons. cbn [deliver]. unfold bind, ret.
    rewrite RemoveTrack_unfold, Hreg. cbn [snd].
    destruct (IH (mkWorld (peer w) (pc_RemoveTrack rtpSender (conn w)).2 (relays w)
                          (trace w ++ [PC_RemoveTrack rtpSender])) Hreg)
      as (Htr & Hp & Hr).
    rewrite Htr, Hp, Hr. cbn. by rewrite <- app_assoc.
Qed.

(** *** The close notification *)

Lemma onCloseCalls_app (tr1 tr2 : list Action) :
  onCloseCalls (tr1 ++ tr2) = onCloseCalls tr1 ++ onCloseCalls tr2.
Proof.
  induction tr1 as [|a tr1 IH]; [done|]. destruct a; cbn; by rewrite ?IH.
Qed.

Lemma deliver_onClose x w :
  onCloseCalls (trace (deliver x w).2) =
  onCloseCalls (trace w) ++ (if isTerminalEvent x then [clientID (peer w)] else []).
Proof.
  step_cases x w; rewrite ?onCloseCalls_app; cbn; rewrite ?app_nil_r; try done.
  - by rewrite Heqb.
  - by rewrite Heqb, app_nil_r.
Qed.

(** Over any schedule, [onClose] is called once for every ICE event whose
    state is disconnected, failed or closed, each time with the Peer's
    client id, and by nothing else: no API call, inbound track, tick or relay
    failure reaches it. *)
Theorem onClose_once_per_terminal_event (inputs : list Input) w :
  onCloseCalls (trace (run inputs w).2) =
  onCloseCalls (trace w) ++ replicate (terminalEvents inputs) (clientID (peer w)).
Proof.
  revert w. induction inputs as [|x inputs IH]; intros w.
  - cbn. by rewrite app_nil_r.
  - rewrite run_cons, IH, deliver_onClose, deliver_clientID.
    unfold terminalEvents. cbn [List.filter].
    destruct (isTerminalEvent x); cbn; by rewrite <- ?app_assoc, ?app_nil_r.
Qed.

Lemma run_ICE_frame (states : list webrtc.ICEConnectionState) w :
  peer (run (map ICEConnectionStateChange states) w).2 = peer w /\
  conn (run (map ICEConnectionStateChange states) w).2 = conn w /\
  relays (run (map ICEConnectionStateChange states) w).2 = relays w /\
  transportCalls (trace (run (map ICEConnectionStateChange states) w).2)
    = transportCalls (trace w).
Proof.
  revert w. induction states as [|s states IH]; intros w; [done|].
  cbn [map]. rewrite run_cons. cbn [deliver].
  rewrite handleICEConnectionStateChange_unfold. cbn [snd].
  destruct (IH (mkWorld (peer w) (conn w) (relays w)
                  (trace w ++
                   Log ("Peer connection state changed, clientID: " +:+
                        clientID (peer w) +:+ ", state: " +:+ webrtc.String s)
                   :: (if isTerminal s then [OnCloseCb (clientID (peer w))] else []))))
    as (Hp & Hc & Hr & Ht).
  rewrite Hp, Hc, Hr, Ht. cbn [peer conn relays trace].
  repeat split. unfold transportCalls. rewrite List.filter_app.
  destruct (isTerminal s); cbn; by rewrite app_nil_r.
Qed.

(** ICE events tear nothing down: after any sequence of them, terminal ones
    included, the Peer, the transport's state and every relay are as they
    were and the transport has not been called; a relay whose ticker runs
    still answers its next tick with a PLI for its remote track. *)
Theorem ICE_events_stop_no_relay (states : list webrtc.ICEConnectionState) w :
  let w' := (run (map ICEConnectionStateChange states) w).2 in
  peer w' = peer w /\
  conn w' = conn w /\
  relays w' = relays w /\
  transportCalls (trace w') = transportCalls (trace w) /\
  forall i r,
    relays w !! i = Some r -> stopped (ticker r) = false ->
    rtcpWritten (trace (pliTask i w').2) =
      rtcpWritten (trace w') ++
      [rtcp.PictureLossIndication 0 (webrtc.SSRC (remoteTrack r))].
Proof.
  intros w'. destruct (run_ICE_frame states w) as (Hp & Hc & Hr & Ht).
  subst w'. repeat (split; [done|]).
  intros i r Hi Hs. rewrite pliTask_unfold, Hr, Hi, Hs. cbn zeta. cbn [snd trace].
  rewrite rtcpWritten_app. f_equal.
  destruct (pc_WriteRTCP _ _).1; reflexivity.
Qed.

(** *** One relay among the others *)

Lemma deliver_ofRelay_frame i x w :
  ofRelay i x = true ->
  peer (deliver x w).2 = peer w /\
  length (relays (deliver x w).2) = length (relays w) /\
  forall j, j <> i -> relays (deliver x w).2 !! j = relays w !! j.
Proof.
  intros Hx.
  step_cases x w; cbn in Hx; try discriminate;
    apply bool_decide_eq_true_1 in Hx; subst;
    rewrite ?length_alter, ?length_insert; repeat split; try done;
    intros k Hk;
    rewrite ?list_lookup_alter_ne, ?list_lookup_insert_ne by done; done.
Qed.

Lemma run_ofRelay_peer i (inputs : list Input) w :
  forallb (ofRelay i) inputs = true -> peer (run inputs w).2 = peer w.
Proof.
  revert w. induction inputs as [|x inputs IH]; intros w Hall; [done|].
  cbn [forallb] in Hall. apply andb_true_iff in Hall as [Hx Hall].
  rewrite run_cons, IH by done. by apply (deliver_ofRelay_frame i).
Qed.

(** *** Tickers *)

Lemma tickerStops_app i (tr1 tr2 : list Action) :
  tickerStops i (tr1 ++ tr2) = (tickerStops i tr1 + tickerStops i tr2)%nat.
Proof. unfold tickerStops. by rewrite List.filter_app, length_app. Qed.

Lemma tickersCreated_app (tr1 tr2 : list Action) :
  tickersCreated (tr1 ++ tr2) = (tickersCreated tr1 + tickersCreated tr2)%nat.
Proof. unfold tickersCreated. by rewrite List.filter_app, length_app. Qed.

(** The state of relay [i] against the trace: it copies exactly while its
    ticker runs, and its [ticker.Stop()] has run once if the ticker is
    stopped and never otherwise; a relay that does not exist has stopped no
    ticker. *)
Lemma relay_ticker_step i x w :
  match relays w !! i with
  | Some r => copying r = negb (stopped (ticker r)) /\
              tickerStops i (trace w) = (if stopped (ticker r) then 1 else 0)%nat
  | None => tickerStops i (trace w) = 0%nat
  end ->
  match relays (deliver x w).2 !! i with
  | Some r => copying r = negb (stopped (ticker r)) /\
              tickerStops i (trace (deliver x w).2)
                = (if stopped (ticker r) then 1 else 0)%nat
  | None => tickerStops i (trace (deliver x w).2) = 0%nat
  end.
Proof.
  intros Hi.
  step_cases x w; rewrite ?tickerStops_app; cbn [tickerStops List.filter isTickerStop length];
    rewrite ?Nat.add_0_r; try exact Hi.
  - (* a relay starts *)
    destruct (decide (i < length (relays w))%nat) as [Hlt|Hge].
    + by rewrite lookup_app_l.
    + rewrite lookup_ge_None_2 in Hi by lia.
      rewrite lookup_app_r by lia.
      destruct (i - length (relays w))%nat; cbn; [by split | done].
  - (* the read fails *)
    destruct (decide (j = i)) as [->|Hne].
    + rewrite list_lookup_alter_eq, Heqo. cbn. rewrite Heqo in Hi.
      destruct Hi as [Hc Hn]. rewrite Heqb in Hc.
      destruct (stopped (ticker rj)); [discriminate|].
      rewrite bool_decide_eq_true_2 by done. cbn. split; [done | lia].
    + rewrite list_lookup_alter_ne by done.
      rewrite bool_decide_eq_false_2 by done. cbn. by rewrite Nat.add_0_r.
  - (* the write finds no subscriber *)
    destruct (decide (j = i)) as [->|Hne].
    + rewrite list_lookup_insert_eq by (by eapply lookup_lt_Some).
      by rewrite Heqo in Hi.
    + by rewrite list_lookup_insert_ne.
  - (* the write fails *)
    destruct (decide (j = i)) as [->|Hne].
    + rewrite list_lookup_alter_eq, list_lookup_insert_eq
        by (by eapply lookup_lt_Some).
      cbn. rewrite Heqo in Hi.
      destruct Hi as [Hc Hn]. rewrite Heqb in Hc.
      destruct (stopped (ticker rj)); [discriminate|].
      rewrite bool_decide_eq_true_2 by done. cbn. split; [done | lia].
    + rewrite list_lookup_alter_ne, list_lookup_insert_ne by done.
      rewrite bool_decide_eq_false_2 by done. cbn. by rewrite Nat.add_0_r.
  - (* the write succeeds *)
    destruct (decide (j = i)) as [->|Hne].
    + rewrite list_lookup_insert_eq by (by eapply lookup_lt_Some).
      by rewrite Heqo in Hi.
    + by rewrite list_lookup_insert_ne.
Qed.

(** The ticks and reads of relay [i], failures included, touch neither the
    Peer nor any other relay, and start or remove no relay. *)
Theorem relay_inputs_are_isolated i (inputs : list Input) w :
  forallb (ofRelay i) inputs = true ->
  let w' := (run inputs w).2 in
  peer w' = peer w /\
  length (relays w') = length (relays w) /\
  forall j, j <> i -> relays w' !! j = relays w !! j.
Proof.
  intros Hall w'. subst w'. revert w.
  induction inputs as [|x inputs IH]; intros w; [done|].
  cbn [forallb] in Hall. apply andb_true_iff in Hall as [Hx Hall].
  rewrite run_cons. destruct (IH Hall (deliver x w).2) as (Hp & Hl & Ho).
  destruct (deliver_ofRelay_frame i x w Hx) as (Hp1 & Hl1 & Ho1).
  rewrite Hp, Hl. repeat split; [done|done|].
  intros j Hne. by rewrite Ho, Ho1.
Qed.

(** In every world a Peer can be in there is one ticker per relay; a relay
    copies exactly while its ticker runs; and the deferred [ticker.Stop()]
    of a relay has run once if its ticker is stopped and never if it runs. *)
Theorem ticker_stops_once_with_its_copy_task w :
  reachable w ->
  tickersCreated (trace w) = length (relays w) /\
  forall i,
    match relays w !! i with
    | Some r => copying r = negb (stopped (ticker r)) /\
                tickerStops i (trace w) = (if stopped (ticker r) then 1 else 0)%nat
    | None => tickerStops i (trace w) = 0%nat
    end.
Proof.
  intros Hreach. split.
  - revert w Hreach.
    apply (reachable_induction (fun w => tickersCreated (trace w) = length (relays w)));
      [done|].
    intros x w _ IH.
    step_cases x w; rewrite ?tickersCreated_app, ?length_app, ?length_alter,
                            ?length_insert, IH; cbn; lia.
  - revert w Hreach.
    apply (reachable_induction (fun w => forall i,
             match relays w !! i with
             | Some r => copying r = negb (stopped (ticker r)) /\
                         tickerStops i (trace w)
                           = (if stopped (ticker r) then 1 else 0)%nat
             | None => tickerStops i (trace w) = 0%nat
             end)); [done|].
    intros x w _ IH i. apply relay_ticker_step, IH.
Qed.

(** *** RTCP *)

Lemma rtcpCalls_app (tr1 tr2 : list Action) :
  rtcpCalls (tr1 ++ tr2) = rtcpCalls tr1 ++ rtcpCalls tr2.
Proof.
  induction tr1 as [|a tr1 IH]; [done|]. destruct a; cbn; by rewrite ?IH.
Qed.

Lemma deliver_rtcpCalls x w :
  rtcpCalls (trace (deliver x w).2) = rtcpCalls (trace w) \/
  exists j r,
    relays w !! j = Some r /\
    rtcpCalls (trace (deliver x w).2) =
      rtcpCalls (trace w) ++
      [[rtcp.PictureLossIndication 0 (webrtc.SSRC (remoteTrack r))]].
Proof.
  step_cases x w; rewrite ?rtcpCalls_app; cbn; rewrite ?app_nil_r;
    try (by left); right; by exists j, rj.
Qed.

(** In every world a Peer can be in, each [WriteRTCP] call it has made
    carried exactly one packet: a Picture Loss Indication with sender SSRC 0
    whose media SSRC is that of the remote track of one of its relays. *)
Theorem every_RTCP_call_is_one_PLI_of_a_relay w :
  reachable w ->
  Forall (fun pkts => exists r, r ∈ relays w /\
            pkts = [rtcp.PictureLossIndication 0 (webrtc.SSRC (remoteTrack r))])
         (rtcpCalls (trace w)).
Proof.
  intros Hreach.
  assert (Hinv : Forall (fun pkts => exists p, p ∈ relayTracks <$> relays w /\
                           pkts = [rtcp.PictureLossIndication 0 (webrtc.SSRC p.1)])
                        (rtcpCalls (trace w))).
  { revert w Hreach. apply reachable_induction; [constructor|].
    intros x w _ IH.
    destruct (deliver_tracks x w) as (new & Hrel & _ & _).
    assert (Hold : Forall (fun pkts => exists p,
                             p ∈ relayTracks <$> relays (deliver x w).2 /\
                             pkts = [rtcp.PictureLossIndication 0 (webrtc.SSRC p.1)])
                          (rtcpCalls (trace w))).
    { eapply Forall_impl; [exact IH|]. intros pkts (p & Hp & ->).
      exists p. split; [|done]. rewrite Hrel. apply elem_of_app. by left. }
    destruct (deliver_rtcpCalls x w) as [-> | (j & r & Hj & ->)]; [done|].
    apply Forall_app. split; [done|]. constructor; [|constructor].
    exists (relayTracks r). split; [|done].
    rewrite Hrel. apply elem_of_app. left.
    apply list_elem_of_fmap_2. apply list_elem_of_lookup. by exists j. }
  eapply Forall_impl; [exact Hinv|]. intros pkts (p & Hp & ->).
  apply list_elem_of_fmap in Hp as (r & -> & Hr). by exists r.
Qed.

(** *** Track I/O *)

(** In every world a Peer can be in, no write to a local track has carried
    more than the 1400 bytes of the copy buffer. *)
Theorem writes_fit_the_buffer w :
  reachable w -> Forall writeFits (trace w).
Proof.
  revert w. apply reachable_induction; [repeat constructor|].
  intros x w Hreach IH.
  pose proof (reachable_invariant w Hreach) as [Hok _].
  assert (Hwrite : forall j rj data,
            relays w !! j = Some rj ->
            (length (take (readInto (rtpBuf rj) data).1 (readInto (rtpBuf rj) data).2)
             <= rtpBufSize)%nat).
  { intros j rj data Hj.
    eapply Forall_lookup in Hok; [|exact Hj]. destruct Hok as [_ Hlen].
    rewrite length_take. cbn. lia. }
  step_cases x w; rewrite ?Forall_app; repeat split; try exact IH;
    repeat (apply Forall_cons; split); try apply Forall_nil; try exact I;
    cbn; by eapply Hwrite.
Qed.

Lemma ownTrackIO_app (tracks new : list (webrtc.Track * webrtc.Track)) (a : Action) :
  ownTrackIO tracks a -> ownTrackIO (tracks ++ new) a.
Proof.
  destruct a; cbn; try done.
  - intros [x Hx]. exists x. by apply lookup_app_l_Some.
  - intros (lt & Hlt). exists lt. by apply lookup_app_l_Some.
  - intros (rt & Hrt). exists rt. by apply lookup_app_l_Some.
Qed.

(** In every world a Peer can be in, each read a copy task has made was on
    the remote track its relay was started for, each write on the local
    track created for that relay, and each [ticker.Stop()] that of a relay
    that exists. *)
Theorem relays_use_their_own_tracks w :
  reachable w -> Forall (ownTrackIO (relayTracks <$> relays w)) (trace w).
Proof.
  revert w. apply reachable_induction; [repeat constructor|].
  intros x w _ IH.
  assert (Hown : forall j rj, relays w !! j = Some rj ->
            (relayTracks <$> relays w) !! j = Some (remoteTrack rj, localTrack rj)).
  { intros j rj Hj. by rewrite list_lookup_fmap, Hj. }
  step_cases x w;
    rewrite ?relayTracks_alter, ?relayTracks_insert, ?relayTracks_alter by done;
    rewrite ?Forall_app; repeat split; try exact IH;
    try (repeat (apply Forall_cons; split); try apply Forall_nil; try exact I;
         cbn; rewrite ?Hown by done; by eauto).
  - rewrite fmap_app. eapply Forall_impl; [exact IH|].
    intros a. apply ownTrackIO_app.
Qed.

(** *** A relay nobody listens to *)

Lemma deliver_tickerStops_other i x w :
  (forall io, x <> Copy i io) ->
  tickerStops i (trace (deliver x w).2) = tickerStops i (trace w).
Proof.
  intros Hx.
  step_cases x w; rewrite ?tickerStops_app; cbn; rewrite ?Nat.add_0_r; try done;
    rewrite bool_decide_eq_false_2; cbn; rewrite ?Nat.add_0_r; try done;
    intros ->; by eapply Hx.
Qed.

Lemma deliver_writesBy_other i x w :
  (forall io, x <> Copy i io) ->
  writesBy i (trace (deliver x w).2) = writesBy i (trace w).
Proof.
  intros Hx. rewrite <- (writesBy_copyTrace i (trace (deliver x w).2)).
  by rewrite deliver_copyTrace_other, writesBy_copyTrace.
Qed.

(** The copy goroutine of relay [i] over any schedule in which every read
    returns a packet and every write returns [nil] or [io.ErrClosedPipe]. *)
Lemma copy_run_tolerant i (inputs : list Input) : forall w r,
  relays w !! i = Some r -> copying r = true ->
  length (rtpBuf r) = rtpBufSize ->
  forallb keepsCopying (copyInputs i inputs) = true ->
  Forall (fun io => (length (packetOf io) <= rtpBufSize)%nat) (copyInputs i inputs) ->
  writesBy i (trace (run inputs w).2) =
    writesBy i (trace w) ++ (packetOf <$> copyInputs i inputs) /\
  tickerStops i (trace (run inputs w).2) = tickerStops i (trace w) /\
  exists buf, length buf = rtpBufSize /\
              relays (run inputs w).2 !! i = Some (withBuf r buf).
Proof.
  induction inputs as [|x xs IH]; intros w r Hi Hc Hlen Hkeep Hfit.
  - cbn. rewrite app_nil_r. repeat split. exists (rtpBuf r). by rewrite withBuf_id.
  - rewrite run_cons.
    assert (Hother : (forall io, x <> Copy i io) ->
              copyInputs i (x :: xs) = copyInputs i xs ->
              writesBy i (trace (run xs (deliver x w).2).2) =
                writesBy i (trace w) ++ (packetOf <$> copyInputs i (x :: xs)) /\
              tickerStops i (trace (run xs (deliver x w).2).2) = tickerStops i (trace w) /\
              exists buf, length buf = rtpBufSize /\
                relays (run xs (deliver x w).2).2 !! i = Some (withBuf r buf)).
    { intros Hx Heq. rewrite Heq in *.
      rewrite <- (deliver_writesBy_other i x w Hx).
      rewrite <- (deliver_tickerStops_other i x w Hx).
      apply IH; try done. by apply deliver_relay_other. }
    destruct x as [s|rt|j|j io|t|t];
      try (apply Hother; [intros io'; discriminate | reflexivity]).
    destruct (decide (j = i)) as [->|Hj].
    2:{ apply Hother; [intros io' [= ? ?]; done|].
        cbn. by rewrite bool_decide_eq_false_2. }
    clear Hother. cbn [copyInputs] in *.
    rewrite bool_decide_eq_true_2 in * by done.
    cbn [forallb] in Hkeep. apply andb_true_iff in Hkeep as [Hio Hkeep].
    apply Forall_cons in Hfit as [Hd Hfit].
    set (b1 := (readInto (rtpBuf r) (packetOf io)).2).
    assert (Hb1 : length b1 = rtpBufSize) by (unfold b1; by rewrite readInto_length).
    assert (Hstep : (deliver (Copy i io) w).2 =
              mkWorld (peer w) (conn w) (<[i := withBuf r b1]> (relays w))
                      (trace w ++ [TrackRead i (remoteTrack r);
                                   TrackWrite i (localTrack r) (packetOf io)])).
    { cbn [deliver]. rewrite copyTask_unfold, Hi, Hc. cbn zeta.
      destruct io as [e|data [e|]]; cbn in Hio; try discriminate;
        rewrite ?Hio; cbn [snd packetOf] in *;
        by rewrite readInto_exact by lia. }
    rewrite Hstep.
    destruct (IH (mkWorld (peer w) (conn w) (<[i := withBuf r b1]> (relays w))
                          (trace w ++ [TrackRead i (remoteTrack r);
                                       TrackWrite i (localTrack r) (packetOf io)]))
                 (withBuf r b1)) as (Hwr & Hts & buf & Hbuf & Hrel); try done.
    { cbn [relays]. apply list_lookup_insert_eq. by eapply lookup_lt_Some. }
    split; [|split].
    + rewrite Hwr. cbn [trace]. rewrite writesBy_app. cbn.
      rewrite bool_decide_eq_true_2 by done. by rewrite <- app_assoc.
    + rewrite Hts. cbn [trace]. rewrite tickerStops_app. cbn. lia.
    + exists buf. split; [done|]. by rewrite Hrel.
Qed.

(** A relay nobody listens to goes on: in a reachable world where relay [i]
    is copying, over any schedule in which each of its reads returns a packet
    that fits the buffer and each of its writes returns [nil] or
    [io.ErrClosedPipe], every packet read is offered to the local track,
    byte-identical and in order; the relay is still copying, its ticker is
    as before and its [ticker.Stop()] has not run. *)
Theorem relay_without_subscriber_goes_on i r (inputs : list Input) w :
  reachable w ->
  relays w !! i = Some r -> copying r = true ->
  forallb keepsCopying (copyInputs i inputs) = true ->
  Forall (fun io => (length (packetOf io) <= rtpBufSize)%nat) (copyInputs i inputs) ->
  let w' := (run inputs w).2 in
  writesBy i (trace w') = writesBy i (trace w) ++ (packetOf <$> copyInputs i inputs) /\
  tickerStops i (trace w') = tickerStops i (trace w) /\
  exists r', relays w' !! i = Some r' /\ copying r' = true /\ ticker r' = ticker r.
Proof.
  intros Hreach Hi Hc Hkeep Hfit w'.
  assert (Hok : relay_ok r).
  { apply reachable_invariant in Hreach as [Hrs _].
    eapply Forall_lookup in Hrs; eauto. }
  destruct (copy_run_tolerant i inputs w r Hi Hc (proj2 Hok) Hkeep Hfit)
    as (Hwr & Hts & buf & Hbuf & Hrel).
  subst w'. split; [exact Hwr|]. split; [exact Hts|].
  exists (withBuf r buf). by rewrite Hrel.
Qed.

(** *** From publication to the first packets *)

Lemma copyInputs_copies i (pkts : list (list byte)) :
  copyInputs i (map (fun d => Copy i (ReadThenWrite d None)) pkts)
  = map (fun d => ReadThenWrite d None) pkts.
Proof.
  induction pkts as [|d pkts IH]; [done|].
  cbn. rewrite bool_decide_eq_true_2 by done. by rewrite IH.
Qed.

Lemma run_ofRelay_onTrackCalls i (inputs : list Input) w :
  forallb (ofRelay i) inputs = true ->
  onTrackCalls (trace (run inputs w).2) = onTrackCalls (trace w).
Proof.
  revert w. induction inputs as [|x inputs IH]; intros w Hall; [done|].
  cbn [forallb] in Hall. apply andb_true_iff in Hall as [Hx Hall].
  rewrite run_cons, IH by done. clear IH.
  step_cases x w; cbn in Hx; try discriminate;
    rewrite ?onTrackCalls_app; cbn; by rewrite ?app_nil_r.
Qed.

Lemma forallb_ofRelay_copies i (pkts : list (list byte)) :
  forallb (ofRelay i) (map (fun d => Copy i (ReadThenWrite d None)) pkts) = true.
Proof.
  induction pkts as [|d pkts IH]; [done|].
  cbn. rewrite bool_decide_eq_true_2 by done. exact IH.
Qed.

(** A fresh Peer whose transport creates the local track [lt] for the
    published remote track [rt]: after the inbound-track event and [N]
    packets read and written without error, [Tracks()] is [lt] alone,
    [onTrack] was called once, with [lt], and the track I/O of the relay is
    the [N] packets read from [rt] and written to [lt], in order. *)
Theorem published_track_is_copied (cid : string) (pc : PC) (rt lt : webrtc.Track)
    (pkts : list (list byte)) :
  (startCopyingTrack rt (NewPeer cid pc)).1 = Ok lt ->
  Forall (fun d => (length d <= rtpBufSize)%nat) pkts ->
  let w' := (run (TrackPublished rt ::
                  map (fun d => Copy 0 (ReadThenWrite d None)) pkts)
                 (NewPeer cid pc)).2 in
  (Tracks w').1 = [lt] /\
  onTrackCalls (trace w') = [(cid, lt)] /\
  copyTrace 0 (trace w') = copyActions 0 rt lt pkts /\
  writesBy 0 (trace w') = pkts.
Proof.
  intros Hstart Hfit w'. subst w'.
  rewrite startCopyingTrack_result in Hstart.
  rewrite run_cons. cbn [deliver]. rewrite handleTrack_unfold. cbn zeta.
  destruct (pc_NewTrack _ _ _ _ _) as [[lt'|e] c]; cbn in Hstart; [|discriminate].
  injection Hstart as ->. cbn [snd].
  set (w1 := mkWorld _ _ _ _).
  set (r := mkRelay rt lt (mkTicker rtcpPLIInterval false) true make_rtpBuf).
  assert (Hi : relays w1 !! 0%nat = Some r) by reflexivity.
  destruct (copy_run 0 (map (fun d => Copy 0 (ReadThenWrite d None)) pkts) pkts w1 r
              Hi eq_refl (length_replicate _ _) Hfit (copyInputs_copies 0 pkts))
    as (Htr & _).
  pose proof (run_ofRelay_peer 0 (map (fun d => Copy 0 (ReadThenWrite d None)) pkts) w1
                (forallb_ofRelay_copies 0 pkts)) as Hp.
  rewrite (run_ofRelay_onTrackCalls 0) by apply forallb_ofRelay_copies.
  split.
  { change (localTracks
              (peer (run (map (fun d => Copy 0 (ReadThenWrite d None)) pkts) w1).2)
            = [lt]).
    by rewrite Hp. }
  split.
  { subst w1. cbn [trace]. by rewrite !onTrackCalls_app. }
  assert (Hnone : copyTrace 0 (trace w1) = []).
  { subst w1. cbn [trace]. by rewrite !copyTrace_app. }
  rewrite Hnone in Htr. cbn [app] in Htr. split; [exact Htr|].
  by rewrite <- writesBy_copyTrace, Htr, writesBy_copyActions.
Qed.

End Lifetime.

(** * The lifetime properties at work on the scripted transport *)

Lemma aliceLater_reachable : reachable aliceLater.
Proof. exists "alice", fakeOK, aliceSchedule. reflexivity. Qed.

Lemma Tracks_are_the_relays_local_tracks_witness :
  (Tracks aliceLater).1 = [aliceVideo] /\ length (relays aliceLater) = 1%nat.
Proof.
  destruct (Tracks_are_the_relays_local_tracks aliceLater aliceLater_reachable)
    as [Htracks Hlen].
  split; [exact Htracks | symmetry; exact Hlen].
Defined.

Lemma onTrack_once_per_local_track_witness :
  onTrackCalls (trace aliceLater) = [("alice", aliceVideo)].
Proof. exact (onTrack_once_per_local_track aliceLater aliceLater_reachable). Defined.

Lemma senders_changed_by_AddTrack_only_witness :
  rtpSenderByTrack
    (peer (run [CallRemoveTrack cam; TrackPublished cam;
                ICEConnectionStateChange webrtc.ICEConnectionStateClosed]
               aliceSubscribed).2)
  = rtpSenderByTrack (peer aliceSubscribed).
Proof.
  exact (senders_changed_by_AddTrack_only
           [CallRemoveTrack cam; TrackPublished cam;
            ICEConnectionStateChange webrtc.ICEConnectionStateClosed]
           aliceSubscribed eq_refl).
Defined.

Lemma AddTrack_then_RemoveTrack_witness :
  (pc_AddTrack cam (conn alice)).1 = Ok 100%positive /\
  trace (RemoveTrack cam (AddTrack cam alice).2).2
    = trace alice ++ [PC_AddTrack cam; PC_RemoveTrack 100%positive].
Proof.
  assert (Hadd : (pc_AddTrack cam (conn alice)).1 = Ok 100%positive) by reflexivity.
  destruct (AddTrack_then_RemoveTrack cam alice 100%positive Hadd) as (_ & _ & Htr).
  split; [exact Hadd | exact Htr].
Defined.

Lemma AddTrack_replaces_or_adds_witness :
  (pc_AddTrack cam (conn aliceSubscribed)).1 = Ok 101%positive /\
  rtpSenderByTrack (peer aliceSubscribed) !! webrtc.addr cam = Some 100%positive /\
  rtpSenderByTrack (peer (AddTrack cam aliceSubscribed).2) !! webrtc.addr cam
    = Some 101%positive /\
  size (rtpSenderByTrack (peer (AddTrack cam aliceSubscribed).2)) = 1%nat.
Proof.
  assert (Hadd : (pc_AddTrack cam (conn aliceSubscribed)).1 = Ok 101%positive)
    by reflexivity.
  destruct (AddTrack_replaces_or_adds cam aliceSubscribed 101%positive Hadd)
    as (Hmap & Hsize & _).
  split; [exact Hadd|]. split; [reflexivity|]. split.
  - rewrite Hmap. reflexivity.
  - rewrite Hsize. reflexivity.
Defined.

Lemma RemoveTrack_repeatable_witness :
  rtpSenderByTrack (peer aliceSubscribed) !! webrtc.addr cam = Some 100%positive /\
  trace (run (replicate 3 (CallRemoveTrack cam)) aliceSubscribed).2
    = trace aliceSubscribed ++
      [PC_RemoveTrack 100%positive; PC_RemoveTrack 100%positive;
       PC_RemoveTrack 100%positive].
Proof.
  assert (Hreg : rtpSenderByTrack (peer aliceSubscribed) !! webrtc.addr cam
                 = Some 100%positive) by reflexivity.
  split; [exact Hreg|].
  exact (proj1 (RemoveTrack_repeatable cam 100%positive 3 aliceSubscribed Hreg)).
Defined.

Lemma relay_inputs_are_isolated_witness :
  peer (run [Tick 0; Copy 0 (ReadFails (errorString "EOF")); Tick 0]
            alicePublishing).2
  = peer alicePublishing.
Proof.
  exact (proj1 (relay_inputs_are_isolated 0
                  [Tick 0; Copy 0 (ReadFails (errorString "EOF")); Tick 0]
                  alicePublishing eq_refl)).
Defined.

Lemma ticker_stops_once_with_its_copy_task_witness :
  tickersCreated (trace aliceLater) = 1%nat /\
  tickerStops 0 (trace aliceLater) = 1%nat.
Proof.
  destruct (ticker_stops_once_with_its_copy_task aliceLater aliceLater_reachable)
    as [Hcreated Hstops].
  split; [exact Hcreated | exact (proj2 (Hstops 0%nat))].
Defined.

Lemma every_RTCP_call_is_one_PLI_of_a_relay_witness :
  rtcpCalls (trace aliceLater) = [[rtcp.PictureLossIndication 0 1111]] /\
  Forall (fun pkts => exists r, r ∈ relays aliceLater /\
            pkts = [rtcp.PictureLossIndication 0 (webrtc.SSRC (remoteTrack r))])
         (rtcpCalls (trace aliceLater)).
Proof.
  split; [reflexivity|].
  exact (every_RTCP_call_is_one_PLI_of_a_relay aliceLater aliceLater_reachable).
Defined.

Lemma writes_fit_the_buffer_witness :
  writesBy 0 (trace aliceLater) = [[x01; x02]; [x03]] /\
  Forall writeFits (trace aliceLater).
Proof.
  split; [reflexivity|].
  exact (writes_fit_the_buffer aliceLater aliceLater_reachable).
Defined.

Lemma relays_use_their_own_tracks_witness :
  relayTracks <$> relays aliceLater = [(cam, aliceVideo)] /\
  Forall (ownTrackIO (relayTracks <$> relays aliceLater)) (trace aliceLater).
Proof.
  split; [reflexivity|].
  exact (relays_use_their_own_tracks aliceLater aliceLater_reachable).
Defined.

Lemma relay_without_subscriber_goes_on_witness :
  relays alicePublishing !! 0%nat = Some aliceRelay /\
  writesBy 0
    (trace (run [Copy 0 (ReadThenWrite [x01; x02] (Some ErrClosedPipe)); Tick 0;
                 Copy 0 (ReadThenWrite [x03] None)] alicePublishing).2)
  = [[x01; x02]; [x03]].
Proof.
  assert (Hrel : relays alicePublishing !! 0%nat = Some aliceRelay) by reflexivity.
  assert (Hfit : Forall (fun io => (length (packetOf io) <= rtpBufSize)%nat)
                   (copyInputs 0
                      [Copy 0 (ReadThenWrite [x01; x02] (Some ErrClosedPipe)); Tick 0;
                       Copy 0 (ReadThenWrite [x03] None)])).
  { cbn. repeat (apply Forall_cons; split); try (apply Forall_nil; exact I);
      apply Nat.leb_le; reflexivity. }
  destruct (relay_without_subscriber_goes_on 0 aliceRelay
              [Copy 0 (ReadThenWrite [x01; x02] (Some ErrClosedPipe)); Tick 0;
               Copy 0 (ReadThenWrite [x03] None)]
              alicePublishing alicePublishing_reachable Hrel eq_refl eq_refl Hfit)
    as (Hwr & _).
  split; [exact Hrel | exact Hwr].
Defined.

Lemma published_track_is_copied_witness :
  (startCopyingTrack cam (NewPeer "alice" fakeOK)).1 = Ok aliceVideo /\
  (Tracks (run (TrackPublished cam ::
                map (fun d => Copy 0 (ReadThenWrite d None)) [[x01; x02]; [x03]])
               (NewPeer "alice" fakeOK)).2).1 = [aliceVideo] /\
  writesBy 0
    (trace (run (TrackPublished cam ::
                 map (fun d => Copy 0 (ReadThenWrite d None)) [[x01; x02]; [x03]])
                (NewPeer "alice" fakeOK)).2)
  = [[x01; x02]; [x03]].
Proof.
  assert (Hstart : (startCopyingTrack cam (NewPeer "alice" fakeOK)).1 = Ok aliceVideo)
    by reflexivity.
  assert (Hfit : Forall (fun d : list byte => (length d <= rtpBufSize)%nat)
                        [[x01; x02]; [x03]]).
  { cbn. repeat (apply Forall_cons; split); try (apply Forall_nil; exact I);
      apply Nat.leb_le; reflexivity. }
  destruct (published_track_is_copied "alice" fakeOK cam aliceVideo
              [[x01; x02]; [x03]] Hstart Hfit) as (Htracks & _ & _ & Hwr).
  split; [exact Hstart|]. split; [exact Htracks | exact Hwr].
Defined.

(** * The video grid *)

Section VideosFacts.

Variable ME : string.
Variable StreamTypeCamera : string.
Variable getStreamKey : string -> option string -> string.
Variable inObjectPrototype : string -> bool.
Variable props : VideosProps.

Local Abbreviation jsGet := (jsGet inObjectPrototype).
Local Abbreviation placeholderProps :=
  (placeholderProps getStreamKey inObjectPrototype props).
Local Abbreviation streamProps :=
  (streamProps StreamTypeCamera getStreamKey inObjectPrototype props).
Local Abbreviation tilesOf :=
  (tilesOf StreamTypeCamera getStreamKey inObjectPrototype props).
Local Abbreviation forEachStream :=
  (forEachStream StreamTypeCamera getStreamKey inObjectPrototype props).
Local Abbreviation addStreamsByUser :=
  (addStreamsByUser StreamTypeCamera getStreamKey inObjectPrototype props).
Local Abbreviation publishedKeys := (publishedKeys inObjectPrototype props).
Local Abbreviation pubStreamId := (pubStreamId inObjectPrototype props).
Local Abbreviation remoteStreamsOf := (remoteStreamsOf inObjectPrototype props).
Local Abbreviation forEachNickname :=
  (forEachNickname ME StreamTypeCamera getStreamKey inObjectPrototype props).
Local Abbreviation getStreams :=
  (getStreams ME StreamTypeCamera getStreamKey inObjectPrototype props).

Implicit Types (p : StreamProps) (ps : list StreamProps) (acc : Lists).

Lemma addAll_app ps1 ps2 acc : addAll (ps1 ++ ps2) acc = addAll ps2 (addAll ps1 acc).
Proof. apply foldl_app. Qed.

(** Adding props one by one sorts them, in order, by their window state. *)
Lemma addAll_sorts ps acc :
  addAll ps acc =
  (acc.1 ++ List.filter isMinimized ps,
   acc.2 ++ List.filter (fun p => negb (isMinimized p)) ps).
Proof.
  revert acc. induction ps as [|p ps IH]; intros [mi ma].
  - cbn. by rewrite !app_nil_r.
  - cbn [addAll foldl]. fold (addAll ps (addStreamProps p (mi, ma))). rewrite IH.
    unfold addStreamProps. cbn [List.filter].
    destruct (isMinimized p); cbn; by rewrite <- ?app_assoc.
Qed.

(** [streams.forEach] returns when no element is [undefined], having added
    the props of each stream in turn. *)
Lemma forEachStream_Some (localUser : bool) (peerId : string)
    (sts : list StreamWithURL) acc :
  forEachStream localUser peerId (Some <$> sts) acc
  = Some (addAll (streamProps localUser peerId <$> sts) acc).
Proof.
  revert acc. induction sts as [|st sts IH]; intros acc; [done|].
  cbn. by rewrite IH.
Qed.

Lemma forEachStream_inv (localUser : bool) (peerId : string)
    (ss : list (option StreamWithURL)) acc acc' :
  forEachStream localUser peerId ss acc = Some acc' ->
  exists sts, ss = Some <$> sts.
Proof.
  revert acc. induction ss as [|[st|] ss IH]; intros acc Hrun.
  - by exists [].
  - cbn in Hrun. destruct (IH _ Hrun) as [sts ->]. by exists (st :: sts).
  - discriminate.
Qed.

(** What [addStreamsByUser] adds for one user: the placeholder when the user
    has no stream, and otherwise the props of each stream in turn. *)
Lemma addStreamsByUser_Some (localUser : bool) (peerId : string)
    (ss : list (option StreamWithURL)) acc acc' :
  addStreamsByUser localUser peerId ss acc = Some acc' ->
  exists sts, ss = Some <$> sts /\ acc' = addAll (tilesOf localUser peerId sts) acc.
Proof.
  intros Hrun. destruct ss as [|s ss].
  - exists []. split; [done|]. cbn in Hrun. by injection Hrun as <-.
  - cbn [addStreamsByUser] in Hrun.
    destruct (forEachStream_inv _ _ _ _ _ Hrun) as [sts Heq].
    exists sts. split; [done|]. rewrite Heq, forEachStream_Some in Hrun.
    injection Hrun as <-. by destruct sts.
Qed.

Lemma addStreamsByUser_is_Some (localUser : bool) (peerId : string)
    (ss : list (option StreamWithURL)) acc :
  is_Some (addStreamsByUser localUser peerId ss acc) <-> Forall is_Some ss.
Proof.
  split.
  - intros [acc' Hrun]. destruct (addStreamsByUser_Some _ _ _ _ _ Hrun) as (sts & -> & _).
    apply Forall_fmap, Forall_forall. intros st _. by eexists.
  - intros Hall. assert (exists sts, ss = Some <$> sts) as [sts ->].
    { induction Hall as [|s ss [st ->] _ [sts ->]]; [by exists []|].
      by exists (st :: sts). }
    destruct sts as [|st sts]; [by eexists|].
    cbn [addStreamsByUser fmap list_fmap].
    change (Some st :: (Some <$> sts)) with (Some <$> (st :: sts)).
    rewrite forEachStream_Some. by eexists.
Qed.

(** What [forEach(nicknames, ...)] adds: for each nickname other than [ME],
    in order, the tiles of the streams found for that peer. *)
Lemma forEachNickname_Some (nicks : list (string * string)) : forall acc acc',
  forEachNickname nicks acc = Some acc' ->
  exists remotes : list (string * list StreamWithURL),
    remotes.*1 = filter (fun pid => pid <> ME) nicks.*1 /\
    Forall (fun r => remoteStreamsOf r.1 = Some r.2) remotes /\
    acc' = addAll (flat_map (fun r => tilesOf false r.1 r.2) remotes) acc.
Proof.
  induction nicks as [|[pid nick] nicks IH]; intros acc acc' Hrun.
  - exists []. cbn in *. by injection Hrun as <-.
  - cbn [forEachNickname] in Hrun. cbn [fmap list_fmap fst]. case_bool_decide as Hme.
    + destruct (remoteStreamsOf pid) as [sts|] eqn:Hsts; [|discriminate].
      cbn in Hrun.
      destruct (addStreamsByUser false pid (Some <$> sts) acc) as [acc1|] eqn:Hadd;
        [|discriminate].
      cbn in Hrun.
      destruct (addStreamsByUser_Some _ _ _ _ _ Hadd) as (sts' & Heq & ->).
      apply (inj (fmap Some)) in Heq as <-.
      destruct (IH _ _ Hrun) as (remotes & Hkeys & Hall & ->).
      exists ((pid, sts) :: remotes). split; [|split].
      * rewrite filter_cons_True by done. cbn. by rewrite Hkeys.
      * by constructor.
      * cbn [flat_map fst snd]. by rewrite addAll_app.
    + destruct (IH _ _ Hrun) as (remotes & Hkeys & Hall & ->).
      exists remotes. split; [|done].
      rewrite filter_cons_False by (intros ?; done). done.
Qed.

Lemma forEachNickname_is_Some (nicks : list (string * string)) : forall acc,
  is_Some (forEachNickname nicks acc) <->
  Forall (fun pid => pid <> ME -> is_Some (remoteStreamsOf pid)) nicks.*1.
Proof.
  induction nicks as [|[pid nick] nicks IH]; intros acc.
  - split; [constructor | by eexists].
  - cbn [forEachNickname fmap list_fmap fst]. rewrite Forall_cons.
    case_bool_decide as Hme.
    + destruct (remoteStreamsOf pid) as [sts|] eqn:Hsts; cbn.
      * assert (is_Some (addStreamsByUser false pid (Some <$> sts) acc)) as [acc1 ->].
        { apply addStreamsByUser_is_Some, Forall_fmap, Forall_forall.
          intros st _. by eexists. }
        cbn. rewrite IH. split; [|by intros [_ ?]]. intros Hrest. split; [|done].
        intros _. by eexists.
      * split; [by intros [? ?]|]. intros [Hpid _]. by destruct (Hpid Hme).
    + rewrite IH. split; [|by intros [_ ?]]. intros Hrest. split; [|done].
      intros Hne. done.
Qed.

(** The whole of [getStreams]: the tiles of the local user, then those of
    each other nickname in order, added one by one to the two empty lists. *)
Lemma getStreams_addAll (lists : Lists) :
  getStreams = Some lists ->
  exists (locals : list StreamWithURL) (remotes : list (string * list StreamWithURL)),
    (localStreams (streams props)).*2 = Some <$> locals /\
    remotes.*1 = filter (fun pid => pid <> ME) (nicknames props).*1 /\
    Forall (fun r => remoteStreamsOf r.1 = Some r.2) remotes /\
    lists = addAll (tilesOf true ME locals ++
                    flat_map (fun r => tilesOf false r.1 r.2) remotes) ([], []).
Proof.
  unfold Videos.getStreams. intros Hrun.
  destruct (addStreamsByUser true ME _ _) as [acc|] eqn:Hadd; [|discriminate].
  cbn in Hrun.
  destruct (addStreamsByUser_Some _ _ _ _ _ Hadd) as (locals & Hloc & ->).
  destruct (forEachNickname_Some _ _ _ Hrun) as (remotes & Hkeys & Hall & Hres).
  exists locals, remotes. repeat (split; [done|]).
  by rewrite <- addAll_app in Hres.
Qed.

Lemma addAll_from_empty (tiles minimized maximized : list StreamProps) :
  (minimized, maximized) = addAll tiles ([], []) ->
  minimized = List.filter isMinimized tiles /\
  maximized = List.filter (fun p => negb (isMinimized p)) tiles.
Proof. rewrite addAll_sorts. cbn. by intros [= -> ->]. Qed.

Lemma Forall_List_filter {A : Type} (Q : A -> Prop) (f : A -> bool) (l : list A) :
  Forall Q l -> Forall Q (List.filter f l).
Proof.
  induction 1 as [|x l Hx _ IH]; cbn; [constructor|].
  destruct (f x); [by constructor | done].
Qed.

Lemma elem_of_List_filter_split {A : Type} (f : A -> bool) (l : list A) (x : A) :
  x ∈ l -> x ∈ List.filter f l \/ x ∈ List.filter (fun y => negb (f y)) l.
Proof.
  intros Hx. destruct (f x) eqn:Hf; [left | right];
    apply list_elem_of_In, filter_In; rewrite ?Hf; split;
    try done; by apply list_elem_of_In.
Qed.

Lemma length_List_filter_split {A : Type} (f : A -> bool) (l : list A) :
  (length (List.filter f l) + length (List.filter (fun y => negb (f y)) l))%nat
  = length l.
Proof. induction l as [|x l IH]; [done|]. cbn. destruct (f x); cbn; lia. Qed.

Lemma tilesOf_Forall (Q : StreamProps -> Prop) (localUser : bool) (peerId : string)
    (sts : list StreamWithURL) :
  Q (placeholderProps localUser peerId) ->
  (forall st, Q (streamProps localUser peerId st)) ->
  Forall Q (tilesOf localUser peerId sts).
Proof.
  intros Hph Hst. destruct sts as [|st sts]; [by repeat constructor|].
  unfold Videos.tilesOf. apply Forall_fmap, Forall_forall. intros st' _. apply Hst.
Qed.

Lemma length_tilesOf (localUser : bool) (peerId : string) (sts : list StreamWithURL) :
  length (tilesOf localUser peerId sts) = Nat.max 1 (length sts).
Proof.
  destruct sts as [|st sts]; [done|].
  unfold Videos.tilesOf. rewrite length_fmap. cbn. lia.
Qed.

Lemma tilesOf_shows (localUser : bool) (pid : string) (sts : list StreamWithURL) :
  exists p, p ∈ tilesOf localUser pid sts /\ peerId p = pid.
Proof.
  destruct sts as [|st sts].
  - exists (placeholderProps localUser pid). split; [apply list_elem_of_here | done].
  - exists (streamProps localUser pid st). split; [apply list_elem_of_here | done].
Qed.

(** Whatever holds of every tile that can be created holds of every tile in
    the two lists. *)
Lemma getStreams_Forall (Q : StreamProps -> Prop)
    (minimized maximized : list StreamProps) :
  Q (placeholderProps true ME) ->
  (forall st, Q (streamProps true ME st)) ->
  (forall pid, pid <> ME -> pid ∈ (nicknames props).*1 ->
     Q (placeholderProps false pid) /\ forall st, Q (streamProps false pid st)) ->
  getStreams = Some (minimized, maximized) ->
  Forall Q minimized /\ Forall Q maximized.
Proof.
  intros Hme_ph Hme_st Hother Hrun.
  destruct (getStreams_addAll _ Hrun) as (locals & remotes & _ & Hkeys & _ & Hres).
  apply addAll_from_empty in Hres as [Hmi Hma].
  assert (Hall : Forall Q (tilesOf true ME locals ++
                           flat_map (fun r => tilesOf false r.1 r.2) remotes)).
  { apply Forall_app. split; [by apply tilesOf_Forall|].
    apply Forall_forall. intros p Hp.
    apply list_elem_of_In, in_flat_map in Hp as ([pid sts] & Hr & Hp).
    apply list_elem_of_In in Hr, Hp. cbn [fst snd] in Hp.
    assert (Hpid : pid ∈ filter (fun pid => pid <> ME) (nicknames props).*1).
    { rewrite <- Hkeys. apply list_elem_of_fmap. by exists (pid, sts). }
    apply list_elem_of_filter in Hpid as [Hne Hin].
    destruct (Hother pid Hne Hin) as [Hph Hst].
    revert p Hp. apply Forall_forall. by apply tilesOf_Forall. }
  subst. split; by apply Forall_List_filter.
Qed.

(** When [getStreams] returns, [minimized] holds the tiles whose window
    state is "minimized" and [maximized] all the others, out of these tiles
    in this order: those of the local user's streams (one placeholder when
    there is none), then for each nickname other than [ME], in the order of
    [nicknames], those of the remote streams found for it (one placeholder
    when there is none).  Both lists keep that order. *)
Theorem getStreams_sorts_the_tiles (minimized maximized : list StreamProps) :
  getStreams = Some (minimized, maximized) ->
  exists (locals : list StreamWithURL) (remotes : list (string * list StreamWithURL)),
    (localStreams (streams props)).*2 = Some <$> locals /\
    remotes.*1 = filter (fun pid => pid <> ME) (nicknames props).*1 /\
    Forall (fun r => remoteStreamsOf r.1 = Some r.2) remotes /\
    let tiles := tilesOf true ME locals ++
                 flat_map (fun r => tilesOf false r.1 r.2) remotes in
    minimized = List.filter isMinimized tiles /\
    maximized = List.filter (fun p => negb (isMinimized p)) tiles.
Proof.
  intros Hrun.
  destruct (getStreams_addAll _ Hrun) as (locals & remotes & Hloc & Hkeys & Hall & Hres).
  exists locals, remotes. repeat (split; [done|]).
  cbn zeta. by apply addAll_from_empty.
Qed.

(** [getStreams] returns, rather than throw a [TypeError], exactly when no
    value of [streams.localStreams] is [undefined] and, for every nickname
    other than [ME], every stream id published for it is found in
    [streams.pubStreams], as an entry of its own or as a member the object
    inherits from [Object.prototype]. *)
Theorem getStreams_returns_iff :
  is_Some getStreams <->
  Forall is_Some (localStreams (streams props)).*2 /\
  Forall (fun pid => pid <> ME ->
            Forall (fun k => jsGet (pubStreams (streams props)) k <> Undefined)
                   (publishedKeys pid))
         (nicknames props).*1.
Proof.
  assert (Hremote : forall pid,
            is_Some (remoteStreamsOf pid) <->
            Forall (fun k => jsGet (pubStreams (streams props)) k <> Undefined)
                   (publishedKeys pid)).
  { intros pid. unfold Videos.remoteStreamsOf.
    assert (Hid : forall k, is_Some (pubStreamId k) <->
                            jsGet (pubStreams (streams props)) k <> Undefined).
    { intros k. unfold Videos.pubStreamId.
      destruct (jsGet (pubStreams (streams props)) k); split; try done;
        try (intros _; by eexists); by intros [? ?]. }
    rewrite <- (Forall_iff _ _ _ Hid).
    rewrite <- (mapM_is_Some pubStreamId).
    destruct (mapM _ _); cbn; split; intros [? ?]; try done; by eexists. }
  unfold Videos.getStreams. cbn zeta.
  rewrite <- (addStreamsByUser_is_Some true ME _ ([], [])).
  destruct (addStreamsByUser true ME _ _) as [acc|]; cbn.
  - rewrite forEachNickname_is_Some. split.
    + intros Hn. split; [by eexists|].
      eapply Forall_impl; [exact Hn|]. intros pid Hp Hne. by apply Hremote, Hp.
    + intros [_ Hn]. eapply Forall_impl; [exact Hn|].
      intros pid Hp Hne. by apply Hremote, Hp.
  - split; [by intros [? ?] | by intros [[? ?] _]].
Qed.

(** When [getStreams] returns, the local user and every nickname are shown:
    each has a tile in one of the two lists, a placeholder if nothing else;
    and nobody else is shown. *)
Theorem getStreams_shows_everyone (minimized maximized : list StreamProps) :
  getStreams = Some (minimized, maximized) ->
  (forall pid, pid = ME \/ pid ∈ (nicknames props).*1 ->
     exists p, (p ∈ minimized \/ p ∈ maximized) /\ peerId p = pid) /\
  (forall p, p ∈ minimized \/ p ∈ maximized ->
     peerId p = ME \/ peerId p ∈ (nicknames props).*1).
Proof.
  intros Hrun. split.
  - destruct (getStreams_addAll _ Hrun) as (locals & remotes & _ & Hkeys & _ & Hres).
    apply addAll_from_empty in Hres as [Hmi Hma]. subst minimized maximized.
    assert (Hlocal : exists p, p ∈ tilesOf true ME locals /\ peerId p = ME)
      by apply tilesOf_shows.
    intros pid Hpid.
    assert (Hshown : exists p,
              p ∈ tilesOf true ME locals ++
                  flat_map (fun r => tilesOf false r.1 r.2) remotes /\
              peerId p = pid).
    { destruct (decide (pid = ME)) as [->|Hne].
      - destruct Hlocal as (p & Hp & Hid). exists p. split; [|done].
        apply elem_of_app. by left.
      - destruct Hpid as [?|Hin]; [done|].
        assert (Hr : pid ∈ remotes.*1).
        { rewrite Hkeys. by apply list_elem_of_filter. }
        apply list_elem_of_fmap in Hr as ([pid' sts] & -> & Hr).
        destruct (tilesOf_shows false pid' sts) as (p & Hp & Hid).
        exists p. split; [|done]. apply elem_of_app. right.
        apply list_elem_of_In, in_flat_map. exists (pid', sts).
        split; by apply list_elem_of_In. }
    destruct Hshown as (p & Hp & Hid). exists p. split; [|done].
    by apply elem_of_List_filter_split.
  - destruct (getStreams_Forall
                (fun p => peerId p = ME \/ peerId p ∈ (nicknames props).*1)
                minimized maximized) as [Hmi Hma]; try done.
    + by left.
    + by left.
    + intros pid _ Hin. split; [by right|]. intros st. by right.
    + intros p [Hp|Hp]; [revert p Hp | revert p Hp]; by apply Forall_forall.
Qed.

(** When [getStreams] returns, the two lists together hold one tile per
    local stream, or one placeholder when there is none, and for each
    nickname other than [ME] one tile per remote stream found, or one
    placeholder when there is none. *)
Theorem getStreams_tile_count (minimized maximized : list StreamProps) :
  getStreams = Some (minimized, maximized) ->
  (length minimized + length maximized)%nat =
  (Nat.max 1 (length (localStreams (streams props))) +
   sum_list_with (fun pid => Nat.max 1 (length (default [] (remoteStreamsOf pid))))
                 (filter (fun pid => pid <> ME) (nicknames props).*1))%nat.
Proof.
  intros Hrun.
  destruct (getStreams_addAll _ Hrun)
    as (locals & remotes & Hloc & Hkeys & Hall & Hres).
  apply addAll_from_empty in Hres as [Hmi Hma]. subst minimized maximized.
  rewrite length_List_filter_split, length_app, length_tilesOf.
  rewrite <- Hkeys.
  assert (length (localStreams (streams props)) = length locals) as ->.
  { rewrite <- (length_fmap snd), Hloc. by rewrite length_fmap. }
  f_equal. clear Hkeys Hrun.
  induction Hall as [|[pid sts] remotes Hsts _ IH]; [done|].
  cbn [flat_map fmap list_fmap fst snd sum_list_with] in *.
  rewrite length_app, length_tilesOf, IH, Hsts. done.
Qed.

(** When [getStreams] returns, a tile belongs to the local user exactly when
    its peer id is [ME]; a tile with a stream is muted exactly when it is the
    local user's, and a placeholder says nothing about muting or mirroring;
    a tile is mirrored only when it shows a stream of the local user that is
    a camera stream with [mirror] set. *)
Theorem getStreams_mutes_and_mirrors_local_tiles_only
    (minimized maximized : list StreamProps) :
  getStreams = Some (minimized, maximized) ->
  Forall (fun p =>
            (localUser p = Some true <-> peerId p = ME) /\
            (is_Some (stream p) -> muted p = localUser p) /\
            (stream p = None -> muted p = None /\ mirrored p = None) /\
            (mirrored p = Some true ->
               localUser p = Some true /\
               exists st, stream p = Some st /\
                          type st = Some StreamTypeCamera /\ mirror st = Some true))
         (minimized ++ maximized).
Proof.
  intros Hrun. apply Forall_app.
  apply (getStreams_Forall _ minimized maximized); [| | |done].
  - cbn. repeat split; try done; by intros [? ?].
  - intros st. cbn. repeat split; try done.
    match goal with Hm' : Some _ = Some true |- _ => injection Hm' as Hm end.
    exists st. split; [done|].
    apply andb_true_iff in Hm as [Hm Hmirror].
    apply andb_true_iff in Hm as [_ Htype].
    apply bool_decide_eq_true_1 in Htype. split; [done|].
    by destruct (mirror st) as [[]|].
  - intros pid Hne _. split.
    + cbn. repeat split; try done; by intros [? ?].
    + intros st. cbn. repeat split; try done.
Qed.

(** When [getStreams] returns, the key of every tile is [getStreamKey] of
    its peer id and the [streamId] of its stream ([undefined] for a
    placeholder), and its window state is [windowStates[key]]; so a tile is
    in [minimized] exactly when [windowStates] has an entry of its own under
    that key whose value is "minimized": what the object inherits under the
    key never minimizes a tile. *)
Theorem getStreams_window_state_by_key (minimized maximized : list StreamProps) :
  getStreams = Some (minimized, maximized) ->
  Forall (fun p =>
            key p = getStreamKey (peerId p) (stream p ≫= streamId) /\
            windowState p = jsGet (windowStates props) (key p))
         (minimized ++ maximized) /\
  Forall (fun p => jsOwn (windowStates props) (key p) = Some "minimized") minimized /\
  Forall (fun p => jsOwn (windowStates props) (key p) <> Some "minimized") maximized.
Proof.
  intros Hrun.
  assert (Hfields : Forall (fun p =>
            key p = getStreamKey (peerId p) (stream p ≫= streamId) /\
            windowState p = jsGet (windowStates props) (key p)) minimized /\
          Forall (fun p =>
            key p = getStreamKey (peerId p) (stream p ≫= streamId) /\
            windowState p = jsGet (windowStates props) (key p)) maximized).
  { apply (getStreams_Forall _ minimized maximized); [| | |done].
    - done.
    - done.
    - intros pid _ _. by split. }
  destruct Hfields as [Hmi Hma].
  assert (Hown : forall p,
            windowState p = jsGet (windowStates props) (key p) ->
            isMinimized p = true <->
            jsOwn (windowStates props) (key p) = Some "minimized").
  { intros p Hws. unfold isMinimized. rewrite Hws. unfold Videos.jsGet.
    destruct (jsOwn (windowStates props) (key p)) as [state|].
    - rewrite bool_decide_eq_true. split; [by intros -> | by intros [= ->]].
    - destruct (inObjectPrototype (key p)); split; intros; discriminate. }
  destruct (getStreams_addAll _ Hrun) as (locals & remotes & _ & _ & _ & Hres).
  apply addAll_from_empty in Hres as [Hmin Hmax].
  split; [by apply Forall_app|].
  rewrite Forall_forall in Hmi. rewrite Forall_forall in Hma. split.
  - apply Forall_forall. intros p Hp.
    apply (Hown p (proj2 (Hmi p Hp))).
    rewrite Hmin in Hp. apply list_elem_of_In, filter_In in Hp. apply Hp.
  - apply Forall_forall. intros p Hp Hmini.
    apply (Hown p (proj2 (Hma p Hp))) in Hmini.
    rewrite Hmax in Hp. apply list_elem_of_In, filter_In in Hp as [_ Hp].
    by rewrite Hmini in Hp.
Qed.

End VideosFacts.

(** * The video grid at work on a call of three *)

Lemma demo_getStreams :
  getStreams "me" "camera" demoKey demoPrototype demoProps
  = Some (demoMinimized, demoMaximized).
Proof. reflexivity. Qed.

Lemma getStreams_sorts_the_tiles_witness :
  exists (locals : list StreamWithURL) (remotes : list (string * list StreamWithURL)),
    (localStreams (streams demoProps)).*2 = Some <$> locals /\
    remotes.*1 = filter (fun pid => pid <> "me") (nicknames demoProps).*1 /\
    Forall (fun r => remoteStreamsOf demoPrototype demoProps r.1 = Some r.2) remotes /\
    let tiles := tilesOf "camera" demoKey demoPrototype demoProps true "me" locals ++
                 flat_map (fun r => tilesOf "camera" demoKey demoPrototype demoProps
                                            false r.1 r.2)
                          remotes in
    demoMinimized = List.filter isMinimized tiles /\
    demoMaximized = List.filter (fun p => negb (isMinimized p)) tiles.
Proof.
  exact (getStreams_sorts_the_tiles "me" "camera" demoKey demoPrototype demoProps
           demoMinimized demoMaximized demo_getStreams).
Defined.

Lemma getStreams_shows_everyone_witness :
  exists p, (p ∈ demoMinimized \/ p ∈ demoMaximized) /\ peerId p = "carol".
Proof.
  apply (proj1 (getStreams_shows_everyone "me" "camera" demoKey demoPrototype demoProps
                  demoMinimized demoMaximized demo_getStreams)).
  right. cbn. apply list_elem_of_further, list_elem_of_further, list_elem_of_here.
Defined.

Lemma getStreams_tile_count_witness :
  (length demoMinimized + length demoMaximized)%nat = 4%nat.
Proof.
  exact (getStreams_tile_count "me" "camera" demoKey demoPrototype demoProps
           demoMinimized demoMaximized demo_getStreams).
Defined.

Lemma getStreams_mutes_and_mirrors_local_tiles_only_witness :
  Forall (fun p =>
            (localUser p = Some true <-> peerId p = "me") /\
            (is_Some (stream p) -> muted p = localUser p) /\
            (stream p = None -> muted p = None /\ mirrored p = None) /\
            (mirrored p = Some true ->
               localUser p = Some true /\
               exists st, stream p = Some st /\
                          type st = Some "camera" /\ mirror st = Some true))
         (demoMinimized ++ demoMaximized).
Proof.
  exact (getStreams_mutes_and_mirrors_local_tiles_only "me" "camera" demoKey
           demoPrototype demoProps demoMinimized demoMaximized demo_getStreams).
Defined.

Lemma getStreams_window_state_by_key_witness :
  Forall (fun p => jsOwn (windowStates demoProps) (key p) = Some "minimized")
         demoMinimized /\
  Forall (fun p => jsOwn (windowStates demoProps) (key p) <> Some "minimized")
         demoMaximized.
Proof.
  exact (proj2 (getStreams_window_state_by_key "me" "camera" demoKey demoPrototype
                  demoProps demoMinimized demoMaximized demo_getStreams)).
Defined.
